(** * secure_chat.py: the command line, the connection set-up, the receive
      thread and the main send loop, embedded as Rocq functions.

    Python [bytes] are lists of [Byte.byte]; Python [str] is a list of code
    points ([N]).  The socket is a script of what successive [recv] calls
    will find; the [gpg] subprocess is a function from its argument vector
    and standard input to a completed process. *)

From Stdlib Require Import String Ascii List NArith ZArith Bool Lia.
From Stdlib Require Import Strings.Byte.
Import ListNotations.

Local Open Scope N_scope.

(** ** Bytes and text *)

Definition bytes := list byte.
Definition text := list N.

(** An ASCII literal as a Python [str]. *)
Definition str (s : string) : text :=
  List.map N_of_ascii (list_ascii_of_string s).

(** An ASCII literal as a Python [bytes] object. *)
Definition b (s : string) : bytes := list_byte_of_string s.

Definition NL : N := 10.
Definition COLON : N := 58.
Definition SLASH : N := 47.
Definition NUL : N := 0.

Definition byte_of_N (n : N) : byte :=
  match Byte.of_N n with
  | Some x => x
  | None => x00
  end.

Definition text_eqb (s t : text) : bool :=
  if list_eq_dec N.eq_dec s t then true else false.

(** ** UTF-8, as [bytes.decode('utf-8')] and [str.encode('utf-8')] do it *)

Module Utf8.

(** Decoder state: at a scalar boundary, or inside a sequence: [more]
    continuation bytes follow the next one, [acc] holds the bits gathered so
    far, and the next byte must lie in [lo..hi]. *)
Inductive state :=
| Start
| Cont (more : nat) (acc : N) (lo hi : N).

Inductive lead :=
| Emit (cp : N)
| Enter (st : state)
| Bad.

(** The first byte of a sequence (Unicode table 3-7: no overlong forms, no
    surrogates, nothing above U+10FFFF). *)
Definition lead_byte (x : N) : lead :=
  if x <? 0x80 then Emit x
  else if x <? 0xC2 then Bad
  else if x <? 0xE0 then Enter (Cont 0 (x - 0xC0) 0x80 0xBF)
  else if x =? 0xE0 then Enter (Cont 1 0 0xA0 0xBF)
  else if x =? 0xED then Enter (Cont 1 0xD 0x80 0x9F)
  else if x <? 0xF0 then Enter (Cont 1 (x - 0xE0) 0x80 0xBF)
  else if x =? 0xF0 then Enter (Cont 2 0 0x90 0xBF)
  else if x <? 0xF4 then Enter (Cont 2 (x - 0xF0) 0x80 0xBF)
  else if x =? 0xF4 then Enter (Cont 2 4 0x80 0x8F)
  else Bad.

Definition in_range (lo hi x : N) : bool := (lo <=? x) && (x <=? hi).

Definition push (acc x : N) : N := acc * 64 + (x - 0x80).

(** [errors='strict']: [None] stands for [UnicodeDecodeError]. *)
Fixpoint decode_from (st : state) (bs : bytes) : option text :=
  match bs with
  | [] => match st with Start => Some [] | Cont _ _ _ _ => None end
  | x :: r =>
      match st with
      | Start =>
          match lead_byte (Byte.to_N x) with
          | Emit cp => option_map (cons cp) (decode_from Start r)
          | Enter st' => decode_from st' r
          | Bad => None
          end
      | Cont more acc lo hi =>
          if in_range lo hi (Byte.to_N x) then
            match more with
            | O => option_map (cons (push acc (Byte.to_N x))) (decode_from Start r)
            | S m => decode_from (Cont m (push acc (Byte.to_N x)) 0x80 0xBF) r
            end
          else None
      end
  end.

Definition decode (bs : bytes) : option text := decode_from Start bs.

(** [errors='ignore']: ill-formed bytes are dropped and decoding resumes at
    the byte that broke the sequence. *)
Fixpoint decode_ignore_from (st : state) (bs : bytes) : text :=
  match bs with
  | [] => []
  | x :: r =>
      let restart :=
        match lead_byte (Byte.to_N x) with
        | Emit cp => cp :: decode_ignore_from Start r
        | Enter st' => decode_ignore_from st' r
        | Bad => decode_ignore_from Start r
        end in
      match st with
      | Start => restart
      | Cont more acc lo hi =>
          if in_range lo hi (Byte.to_N x) then
            match more with
            | O => push acc (Byte.to_N x) :: decode_ignore_from Start r
            | S m => decode_ignore_from (Cont m (push acc (Byte.to_N x)) 0x80 0xBF) r
            end
          else restart
      end
  end.

Definition decode_ignore (bs : bytes) : text := decode_ignore_from Start bs.

(** One code point; [None] stands for [UnicodeEncodeError] (a lone
    surrogate). *)
Definition encode_cp (cp : N) : option bytes :=
  if cp <? 0x80 then Some [byte_of_N cp]
  else if cp <? 0x800 then
    Some [byte_of_N (0xC0 + cp / 64); byte_of_N (0x80 + cp mod 64)]
  else if cp <? 0x10000 then
    if (0xD800 <=? cp) && (cp <=? 0xDFFF) then None
    else Some [byte_of_N (0xE0 + cp / 4096);
               byte_of_N (0x80 + (cp / 64) mod 64);
               byte_of_N (0x80 + cp mod 64)]
  else if cp <? 0x110000 then
    Some [byte_of_N (0xF0 + cp / 262144);
          byte_of_N (0x80 + (cp / 4096) mod 64);
          byte_of_N (0x80 + (cp / 64) mod 64);
          byte_of_N (0x80 + cp mod 64)]
  else None.

Fixpoint encode (t : text) : option bytes :=
  match t with
  | [] => Some []
  | cp :: r =>
      match encode_cp cp, encode r with
      | Some x, Some y => Some (x ++ y)
      | _, _ => None
      end
  end.

End Utf8.

(** ** The [str] methods the program uses *)

(** [t.startswith(p)] *)
Fixpoint startswith (p t : text) : bool :=
  match p, t with
  | [], _ => true
  | _ :: _, [] => false
  | x :: p', y :: t' => (x =? y) && startswith p' t'
  end.

(** [t.partition(c)] for a one-character separator: the text before the first
    [c], the separator found (empty when there is none), the text after. *)
Fixpoint partition (c : N) (t : text) : text * text * text :=
  match t with
  | [] => ([], [], [])
  | x :: r =>
      if x =? c then ([], [c], r)
      else let '(h, s, a) := partition c r in (x :: h, s, a)
  end.

(** [t.split(c, maxsplit)] for a one-character separator. *)
Fixpoint split (c : N) (maxsplit : nat) (t : text) : list text :=
  match maxsplit with
  | O => [t]
  | S m =>
      match partition c t with
      | (h, [], _) => [h]
      | (h, _ :: _, a) => h :: split c m a
      end
  end.

(** [c in t] *)
Definition contains (c : N) (t : text) : bool := existsb (N.eqb c) t.

(** [len(t) > 0], the truth value of a [str] or [bytes] object. *)
Definition truthy {A} (l : list A) : bool :=
  match l with [] => false | _ :: _ => true end.

(** [data[n:]] *)
Definition slice_from {A} (n : nat) (l : list A) : list A := skipn n l.

(** ** Frames and the send path's framing *)

Inductive kind := TextMessage | FileTransfer.

(** The unit of transport the specification speaks of.  The program has no
    such type: on the send path a frame is a header and a ciphertext handed
    to [sendall], on the receive path it is what is handed to [gpg]. *)
Record Frame := {
  frame_kind : kind;
  frame_filename : text;
  frame_payload : bytes
}.

(** [os.path.basename]: what follows the last slash. *)
Fixpoint basename (p : text) : text :=
  match p with
  | [] => []
  | x :: r =>
      if contains SLASH r then basename r
      else if x =? SLASH then r
      else x :: r
  end.

(** Line 215, for a file name already reduced to its base name:
    [f"FILE:{name}:\n".encode('utf-8')]. *)
Definition file_header (name : text) : option bytes :=
  Utf8.encode (str "FILE:" ++ name ++ [COLON; NL]).

(** Lines 215-217: the argument of [sendall] for [/send filepath]. *)
Definition send_file (filepath : text) (encrypted_data : bytes) : option bytes :=
  option_map (fun header => header ++ encrypted_data)
             (file_header (basename filepath)).

(** Lines 224-229: a text message goes out as its ciphertext, nothing
    added. *)
Definition send_text (cipher_bytes : bytes) : bytes := cipher_bytes.

(** The bytes the send path writes for a frame; [None] when the header
    cannot be encoded. *)
Definition encode (f : Frame) : option bytes :=
  match frame_kind f with
  | TextMessage => Some (send_text (frame_payload f))
  | FileTransfer =>
      option_map (fun header => header ++ frame_payload f)
                 (file_header (frame_filename f))
  end.

(** ** The environment: the socket and the [gpg] subprocess *)

(** What successive [recv] calls find: bytes that have arrived, the end of
    the stream, or a socket error.  An empty script is a peer that stays
    silent: [recv] blocks. *)
Inductive event :=
| Chunk (d : bytes)
| Eof
| RecvError (msg : text).

Definition stream := list event.

Inductive recv_result :=
| Data (d : bytes)
| RecvRaises (msg : text)
| RecvBlocks.

(** [connection.recv(bufsize)]: at most [bufsize] of the bytes that have
    arrived; what does not fit stays for the next call.  End of stream
    returns the empty [bytes] object, again and again (an empty chunk in a
    script reads the same way, once). *)
Definition recv (bufsize : N) (s : stream) : recv_result * stream :=
  match s with
  | [] => (RecvBlocks, [])
  | Chunk d :: rest =>
      if N.of_nat (length d) <=? bufsize then (Data d, rest)
      else (Data (firstn (N.to_nat bufsize) d),
            Chunk (skipn (N.to_nat bufsize) d) :: rest)
  | Eof :: rest => (Data [], Eof :: rest)
  | RecvError msg :: rest => (RecvRaises msg, rest)
  end.

(** [subprocess.CompletedProcess], with [capture_output=True]. *)
Record CompletedProcess := {
  returncode : Z;
  stdout : bytes;
  stderr : bytes
}.

(** What the receive thread does to the outside world, in order. *)
Inductive action :=
| Run (argv : list text) (input : bytes)   (* subprocess.run(argv, input=...) *)
| Stdout (line : text)                     (* print(line) *)
| Stderr (s : text)                        (* sys.stderr.write(s) *)
| Close                                    (* connection.close() *)
| Exit (code : Z).                         (* os._exit(code) *)

(** Exceptions no handler of the receive thread catches. *)
Inductive exn :=
| UnicodeDecodeError
| SocketError (msg : text)
| EmbeddedNull.              (* ValueError("embedded null byte") *)

(** How one pass through the body of [while True] ends. *)
Inductive flow :=
| Continue (s : stream)
| Break (s : stream)
| Raised (e : exn) (s : stream)
| Blocked.

(** How the thread ends. *)
Inductive status :=
| Exited (code : Z)
| Died (e : exn)
| Waiting
| Unfinished.

Definition gpg_decrypt : list text := [str "gpg"; str "--decrypt"].

Definition gpg_decrypt_to (filename : text) : list text :=
  [str "gpg"; str "--decrypt"; str "-o"; filename].

Section ReceivePath.

(** [subprocess.run(argv, input=..., capture_output=True)] for a [gpg] that
    starts and comes to an end; [check=True], which turns a non-zero return
    code into [CalledProcessError], is modelled where the call is made. *)
Variable subprocess_run : list text -> bytes -> CompletedProcess.

(** Lines 86-100. *)
Definition decrypt_message (cipher_text_bytes : bytes)
  : list action * (exn + option text) :=
  let proc := subprocess_run gpg_decrypt cipher_text_bytes in
  if (returncode proc =? 0)%Z then
    ([Run gpg_decrypt cipher_text_bytes],
     inr (Some (Utf8.decode_ignore (stdout proc))))
  else
    match Utf8.decode (stderr proc) with
    | Some err =>
        ([Run gpg_decrypt cipher_text_bytes;
          Stderr (str "Decryption error: " ++ err ++ [NL])],
         inr None)
    | None => ([Run gpg_decrypt cipher_text_bytes], inl UnicodeDecodeError)
    end.

(** Lines 145-148. *)
Definition filename_of (header : text) : text :=
  let header_parts := split COLON 2 header in
  if (2 <=? length header_parts)%nat then nth 1 header_parts []
  else str "received_file".

(** Lines 155-163: decrypt the file content into [filename].  An argument
    with a NUL character cannot be handed to a process: [subprocess.run]
    raises [ValueError] before [gpg] is started, and the handler of line 161
    catches [CalledProcessError] only. *)
Definition save_file (filename : text) (cipher_bytes : bytes) (s : stream)
  : list action * flow :=
  if contains NUL filename then ([], Raised EmbeddedNull s)
  else
    let proc := subprocess_run (gpg_decrypt_to filename) cipher_bytes in
    if (returncode proc =? 0)%Z then
      ([Run (gpg_decrypt_to filename) cipher_bytes;
        Stdout ([NL] ++ str "[File received and saved as " ++ filename
                ++ str "]")],
       Continue s)
    else
      match Utf8.decode (stderr proc) with
      | Some err =>
          ([Run (gpg_decrypt_to filename) cipher_bytes;
            Stderr (str "File decryption error: " ++ err ++ [NL])],
           Continue s)
      | None =>
          ([Run (gpg_decrypt_to filename) cipher_bytes],
           Raised UnicodeDecodeError s)
      end.

(** Lines 142-163: the chunk [data] decoded to [text], which starts with
    "FILE:"; [s] is the socket after the read that returned [data]. *)
Definition receive_file (data : bytes) (text : text) (s : stream)
  : list action * flow :=
  let '(header, sep, armored) := partition NL text in
  let filename := filename_of header in
  let cipher_bytes := slice_from (length header + 1) data in
  if text_eqb armored [] && text_eqb sep [NL] then
    match recv 65536 s with
    | (RecvRaises msg, s') => ([], Raised (SocketError msg) s')
    | (RecvBlocks, _) => ([], Blocked)
    | (Data more_data, s') =>
        if truthy more_data then
          match Utf8.decode more_data with
          | Some _ => save_file filename cipher_bytes s'
          | None => ([], Raised UnicodeDecodeError s')
          end
        else save_file filename cipher_bytes s'
    end
  else save_file filename cipher_bytes s.

(** Lines 164-170. *)
Definition receive_text (data : bytes) (s : stream) : list action * flow :=
  match decrypt_message data with
  | (acts, inl e) => (acts, Raised e s)
  | (acts, inr (Some plain)) =>
      (acts ++ [Stdout ([NL] ++ str "Peer: " ++ plain)], Continue s)
  | (acts, inr None) =>
      (acts ++ [Stdout (str "[Could not decrypt incoming message]")], Continue s)
  end.

(** Line 141: [text and text.startswith("FILE:")], with [text = None] after a
    [UnicodeDecodeError]. *)
Definition is_file (text : option text) : bool :=
  match text with
  | Some t => truthy t && startswith (str "FILE:") t
  | None => false
  end.

(** Lines 126-170: one pass through the body of the loop. *)
Definition loop_body (s : stream) : list action * flow :=
  match recv 4096 s with
  | (RecvRaises msg, s') =>
      ([Stderr (str "Socket receive error: " ++ msg ++ [NL])], Break s')
  | (RecvBlocks, _) => ([], Blocked)
  | (Data data, s') =>
      if negb (truthy data) then
        ([Stdout ([NL] ++ str "[Connection closed by peer]")], Break s')
      else
        let text := Utf8.decode data in
        match text with
        | Some t => if is_file text then receive_file data t s'
                    else receive_text data s'
        | None => receive_text data s'
        end
  end.

(** Lines 124-175.  [fuel] bounds the number of passes. *)
Fixpoint receive_loop (fuel : nat) (s : stream) : list action * status :=
  match fuel with
  | O => ([], Unfinished)
  | S fuel' =>
      match loop_body s with
      | (acts, Continue s') =>
          let (acts', st) := receive_loop fuel' s' in (acts ++ acts', st)
      | (acts, Break _) => (acts ++ [Close; Exit 0], Exited 0)
      | (acts, Raised e _) => (acts, Died e)
      | (acts, Blocked) => (acts, Waiting)
      end
  end.

(** Every pass takes something off the script, so its weight is fuel
    enough. *)
Definition weight (s : stream) : nat :=
  fold_right (fun e n =>
    match e with
    | Chunk d => S (length d + n)
    | _ => S n
    end) O s.

Definition receive_thread_func (s : stream) : list action * status :=
  receive_loop (S (weight s)) s.

(** The socket as the passes of the loop find it, one pass after the
    other: a pass that ends in [continue] is followed by another. *)
Fixpoint passes (fuel : nat) (s : stream) : list stream :=
  match fuel with
  | O => []
  | S fuel' =>
      s :: match loop_body s with
           | (_, Continue s') => passes fuel' s'
           | _ => []
           end
  end.

(** The frame a trace shows being handed to [gpg].  The program runs [gpg]
    in two ways only: [gpg --decrypt] on a text message (two arguments) and
    [gpg --decrypt -o filename] on a file (four). *)
Definition frame_of_action (a : action) : option Frame :=
  match a with
  | Run [_; _] input =>
      Some {| frame_kind := TextMessage; frame_filename := [];
              frame_payload := input |}
  | Run [_; _; _; filename] input =>
      Some {| frame_kind := FileTransfer; frame_filename := filename;
              frame_payload := input |}
  | _ => None
  end.

Fixpoint received (acts : list action) : option Frame :=
  match acts with
  | [] => None
  | a :: r =>
      match frame_of_action a with
      | Some f => Some f
      | None => received r
      end
  end.

(** The bytes a script still holds. *)
Definition stream_bytes (s : stream) : nat :=
  fold_right (fun e n =>
    match e with
    | Chunk d => (length d + n)%nat
    | _ => n
    end) O s.

Definition stream_after (fl : flow) : option stream :=
  match fl with
  | Continue s => Some s
  | Raised _ s => Some s
  | Break _ => None
  | Blocked => None
  end.

(** What the specification calls [decode], read off the program: the frame
    one pass of the loop hands to [gpg], with the number of bytes the pass
    took off the socket. *)
Definition decode (s : stream) : option (Frame * nat) :=
  let (acts, fl) := loop_body s in
  match received acts, stream_after fl with
  | Some f, Some s' => Some (f, (stream_bytes s - stream_bytes s')%nat)
  | _, _ => None
  end.

End ReceivePath.

(** ** Connection set-up (lines 102-121) *)

Inductive family := AF_INET | AF_INET6.

Inductive sockcall :=
| SockCreate (f : family)                      (* socket.socket(family, SOCK_STREAM) *)
| SockBind (host : text) (port : Z)            (* sock.bind((host, port)) *)
| SockListen (backlog : Z)                     (* sock.listen(backlog) *)
| SockAccept                                   (* sock.accept() *)
| SockConnect (host : option text) (port : Z). (* sock.connect((host, port)) *)

(** Line 103. *)
Definition family_of (PEER_ADDRESS : option text) : family :=
  match PEER_ADDRESS with
  | Some a => if truthy a && contains COLON a then AF_INET6 else AF_INET
  | None => AF_INET
  end.

(** Line 108. *)
Definition bind_host (f : family) : text :=
  match f with
  | AF_INET6 => str "::"
  | AF_INET => []
  end.

(** The calls are made in order; one that raises ends the program, since
    nothing catches it.  [ok] says which calls succeed. *)
Fixpoint issue (ok : sockcall -> bool) (calls : list sockcall)
  : list sockcall * bool :=
  match calls with
  | [] => ([], true)
  | c :: r =>
      if ok c then let (done, fin) := issue ok r in (c :: done, fin)
      else ([c], false)
  end.

(** The socket calls made, and whether a connection came out of them.  The
    console messages are left out. *)
Definition establish (ok : sockcall -> bool) (LISTEN_MODE : bool)
    (PEER_ADDRESS : option text) (PORT : Z) : list sockcall * bool :=
  let family := family_of PEER_ADDRESS in
  if LISTEN_MODE then
    issue ok [SockCreate family; SockBind (bind_host family) PORT;
              SockListen 1; SockAccept]
  else
    issue ok [SockCreate family; SockConnect PEER_ADDRESS PORT].

Definition is_accept (c : sockcall) : bool :=
  match c with SockAccept => true | _ => false end.

Definition accepts (calls : list sockcall) : nat :=
  length (filter is_accept calls).

(** ** The specification's terms *)

(** The configured maximum the specification gives as its example: 64 MiB. *)
Definition MAX_PAYLOAD : N := 67108864.

(** A valid frame in the specification's words: a text message carries no
    file name, a file name takes at most 255 bytes of UTF-8, the payload is
    within the maximum. *)
Definition valid_frame (max : N) (f : Frame) : bool :=
  match frame_kind f with
  | TextMessage => negb (truthy (frame_filename f))
  | FileTransfer => true
  end
  && match Utf8.encode (frame_filename f) with
     | Some name => (length name <=? 255)%nat
     | None => false
     end
  && (N.of_nat (length (frame_payload f)) <=? max).

(** A 4-byte big-endian unsigned integer, the length field of the
    specification's wire format. *)
Definition be32 (n : N) : bytes :=
  [byte_of_N ((n / 16777216) mod 256); byte_of_N ((n / 65536) mod 256);
   byte_of_N ((n / 256) mod 256); byte_of_N (n mod 256)].

(** The encoding [w] carries the length of [payload] in a 4-byte big-endian
    field right before the payload, as the specification's wire format
    does. *)
Definition carries_length (w payload : bytes) : Prop :=
  exists pre, w = pre ++ be32 (N.of_nat (length payload)) ++ payload.

Definition ascii_text (t : text) : Prop := Forall (fun c => c < 128) t.

(** The frames one read of the receive loop gives back as they were sent: a
    text message that the "FILE:" test does not take for a file, or a file
    whose name is ASCII without colon, newline or NUL and whose ciphertext
    is UTF-8 text. *)
Definition single_read_frame (f : Frame) : Prop :=
  match frame_kind f with
  | TextMessage =>
      frame_filename f = [] /\ is_file (Utf8.decode (frame_payload f)) = false
  | FileTransfer =>
      ascii_text (frame_filename f) /\
      contains COLON (frame_filename f) = false /\
      contains NL (frame_filename f) = false /\
      contains NUL (frame_filename f) = false /\
      exists t, Utf8.decode (frame_payload f) = Some t
  end.

(** [t.split(c)] with no limit on the number of splits. *)
Fixpoint split_all (c : N) (t : text) : list text :=
  match t with
  | [] => [[]]
  | x :: r =>
      if x =? c then [] :: split_all c r
      else match split_all c r with
           | h :: tl => (x :: h) :: tl
           | [] => [[x]]
           end
  end.

Fixpoint bytes_eqb (x y : bytes) : bool :=
  match x, y with
  | [], [] => true
  | p :: x', q :: y' => Byte.eqb p q && bytes_eqb x' y'
  | _, _ => false
  end.

(** A [gpg] that cannot decrypt [bad], saying [err] on its standard error,
    and decrypts everything else to [plain]. *)
Definition gpg_rejecting (bad err plain : bytes)
  : list text -> bytes -> CompletedProcess :=
  fun _ input =>
    if bytes_eqb input bad
    then {| returncode := 2; stdout := []; stderr := err |}
    else {| returncode := 0; stdout := plain; stderr := [] |}.

(** Which calls of a trace ran [gpg] on [input]. *)
Definition runs_on (input : bytes) (a : action) : bool :=
  match a with
  | Run _ i => bytes_eqb i input
  | _ => false
  end.

(** The file names a trace asks [gpg] to write to. *)
Fixpoint written_to (acts : list action) : list text :=
  match acts with
  | [] => []
  | Run [_; _; _; filename] _ :: r => filename :: written_to r
  | _ :: r => written_to r
  end.

(** A [gpg] that decrypts everything to [plain]. *)
Definition gpg_accepting (plain : bytes)
  : list text -> bytes -> CompletedProcess :=
  fun _ _ => {| returncode := 0; stdout := plain; stderr := [] |}.

(** No call of [gpg] in a trace. *)
Definition quiet (acts : list action) : bool :=
  forallb (fun a => match a with Run _ _ => false | _ => true end) acts.

(** The pass leaves the loop by [break]. *)
Definition breaks (fl : flow) : bool :=
  match fl with Break _ => true | _ => false end.

(** ** Whitespace, as [str.strip] and [str.split] see it *)

(** [c.isspace()] for one character. *)
Definition isspace (c : N) : bool :=
  ((0x09 <=? c) && (c <=? 0x0D)) || ((0x1C <=? c) && (c <=? 0x20))
  || (c =? 0x85) || (c =? 0xA0) || (c =? 0x1680)
  || ((0x2000 <=? c) && (c <=? 0x200A))
  || (c =? 0x2028) || (c =? 0x2029) || (c =? 0x202F) || (c =? 0x205F)
  || (c =? 0x3000).

(** [t.lstrip()] *)
Fixpoint lstrip (t : text) : text :=
  match t with
  | [] => []
  | c :: r => if isspace c then lstrip r else t
  end.

(** [t.strip()] *)
Definition strip (t : text) : text := rev (lstrip (rev (lstrip t))).

(** The first word of a text that starts with one, and what follows it. *)
Fixpoint word (t : text) : text * text :=
  match t with
  | [] => ([], [])
  | c :: r => if isspace c then ([], t)
              else let (w, rest) := word r in (c :: w, rest)
  end.

(** [t.split(maxsplit=1)]: the first word, and what follows the white space
    after it, if anything does. *)
Definition split_once (t : text) : list text :=
  match lstrip t with
  | [] => []
  | c :: r =>
      let (w, rest) := word (c :: r) in
      match lstrip rest with
      | [] => [w]
      | d :: r' => [w; d :: r']
      end
  end.

(** [a in options] for a tuple of strings. *)
Definition is_one_of (a : text) (options : list text) : bool :=
  existsb (text_eqb a) options.

(** ** The command line (lines 18-66) *)

Record Config := {
  LISTEN_MODE : bool;
  PEER_ADDRESS : option text;
  PORT : Z;
  PEER_GPG_ID : option text
}.

(** Lines 19-22. *)
Definition defaults : Config :=
  {| LISTEN_MODE := false; PEER_ADDRESS := None; PORT := 9000;
     PEER_GPG_ID := None |}.

(** How the parsing of the arguments ends. *)
Inductive parsed :=
| Parsed (c : Config)
| ArgError (message : text)      (* print(message); sys.exit(1) *)
| ValueError (port : text).      (* int(port) raises; nothing catches it *)

Section CommandLine.

(** [int(s)] for a string; [None] stands for [ValueError]. *)
Variable int : text -> option Z.

(** Lines 25-54, from [args[i]] on. *)
Fixpoint parse_args (c : Config) (args : list text) : parsed :=
  match args with
  | [] => Parsed c
  | a :: rest =>
      if is_one_of a [str "--listen"; str "-l"] then
        parse_args {| LISTEN_MODE := true; PEER_ADDRESS := PEER_ADDRESS c;
                      PORT := PORT c; PEER_GPG_ID := PEER_GPG_ID c |} rest
      else if is_one_of a [str "--connect"; str "-c"] then
        match rest with
        | v :: rest' =>
            parse_args {| LISTEN_MODE := LISTEN_MODE c;
                          PEER_ADDRESS := Some v;
                          PORT := PORT c; PEER_GPG_ID := PEER_GPG_ID c |} rest'
        | [] => ArgError (str "Error: --connect requires an address")
        end
      else if is_one_of a [str "--port"; str "-p"] then
        match rest with
        | v :: rest' =>
            match int v with
            | Some n =>
                parse_args {| LISTEN_MODE := LISTEN_MODE c;
                              PEER_ADDRESS := PEER_ADDRESS c;
                              PORT := n; PEER_GPG_ID := PEER_GPG_ID c |} rest'
            | None => ValueError v
            end
        | [] => ArgError (str "Error: --port requires a port number")
        end
      else if is_one_of a [str "--peer-key"; str "-r"] then
        match rest with
        | v :: rest' =>
            parse_args {| LISTEN_MODE := LISTEN_MODE c;
                          PEER_ADDRESS := PEER_ADDRESS c;
                          PORT := PORT c; PEER_GPG_ID := Some v |} rest'
        | [] => ArgError (str "Error: --peer-key requires a key identifier")
        end
      else ArgError (str "Unknown argument: " ++ a)
  end.

(** How the program gets to its socket, or does not. *)
Inductive boot :=
| Exits (code : Z) (message : text)   (* print(message); sys.exit(code) *)
| PortError (port : text)             (* the uncaught ValueError *)
| Sockets (c : Config) (key : text) (calls : list sockcall) (connected : bool).

Definition usage : text :=
  str "Usage: secure_chat.py --listen [--port X] --peer-key <id>" ++ [NL] ++
  str "   or: secure_chat.py --connect <address> [--port X] --peer-key <id>"
  ++ [NL].

(** Lines 25-121: the arguments [sys.argv[1:]], the value of [PEER_GPG_ID]
    in the environment, and which socket calls succeed. *)
Definition startup (args : list text) (environ_PEER_GPG_ID : option text)
    (ok : sockcall -> bool) : boot :=
  match parse_args defaults args with
  | ArgError message => Exits 1 message
  | ValueError port => PortError port
  | Parsed c =>
      if negb (LISTEN_MODE c)
         && match PEER_ADDRESS c with None => true | Some _ => false end
      then Exits 0 usage
      else
        match (match PEER_GPG_ID c with
               | Some key => Some key
               | None => environ_PEER_GPG_ID
               end) with
        | None =>
            Exits 1 (str "Error: Peer GPG key identifier not specified. Use --peer-key or set PEER_GPG_ID.")
        | Some key =>
            let (calls, connected) :=
              establish ok (LISTEN_MODE c) (PEER_ADDRESS c) (PORT c) in
            Sockets c key calls connected
        end
  end.

End CommandLine.

(** ** The send path (lines 69-84 and 181-239) *)

(** What [input()] gives the main loop; an empty script is a user who types
    nothing more. *)
Inductive keyboard :=
| Line (user_input : text)
| EOFError
| KeyboardInterrupt.

(** What the file system has at a path: [os.path.isfile] is false, or the
    file is there and reading it raises, or gives its bytes. *)
Inductive file :=
| NotAFile
| ReadFails (e : text)
| Contents (file_data : bytes).

(** What the main thread does to the outside world: the actions of the
    receive thread, and [connection.sendall(data)], with the exception it
    raised if it did. *)
Inductive effect :=
| Act (a : action)
| Sendall (data : bytes) (raised : option text).

(** Exceptions the main loop does not catch. *)
Inductive uncaught :=
| EncodeError     (* UnicodeEncodeError *)
| DecodeError.    (* UnicodeDecodeError *)

(** How the main loop ends. *)
Inductive ending :=
| UserQuit      (* "/quit" *)
| SendFailed    (* sendall raised *)
| Exiting       (* EOFError or KeyboardInterrupt *)
| Crashed (e : uncaught)
| AtPrompt.     (* still waiting in input() *)

(** How one pass through the main loop ends: [continue], or the way the
    loop is left. *)
Inductive next :=
| Again
| Stop (how : ending).

Definition gpg_encrypt (recipient : text) : list text :=
  [str "gpg"; str "--encrypt"; str "--armor"; str "-r"; recipient].

Definition is_send (e : effect) : bool :=
  match e with Sendall _ _ => true | Act _ => false end.

(** Calls of [sendall] in a trace. *)
Definition sends (es : list effect) : nat := length (filter is_send es).

Section SendPath.

(** [str.lower], left open. *)
Variable lower : text -> text.

Variable subprocess_run : list text -> bytes -> CompletedProcess.

(** The files at hand. *)
Variable fs : text -> file.

(** What the [n]th call of [sendall] raises, if anything. *)
Variable wire : nat -> option text.

(** The global [PEER_GPG_ID], once the program has started. *)
Variable recipient : text.

(** Lines 69-84. *)
Definition encrypt_message (plain_text : text)
  : list effect * (uncaught + option bytes) :=
  match Utf8.encode plain_text with
  | None => ([], inl EncodeError)
  | Some input =>
      let proc := subprocess_run (gpg_encrypt recipient) input in
      if (returncode proc =? 0)%Z then
        ([Act (Run (gpg_encrypt recipient) input)], inr (Some (stdout proc)))
      else
        match Utf8.decode (stderr proc) with
        | Some err =>
            ([Act (Run (gpg_encrypt recipient) input);
              Act (Stderr (str "Encryption error: " ++ err ++ [NL]))],
             inr None)
        | None =>
            ([Act (Run (gpg_encrypt recipient) input)], inl DecodeError)
        end
  end.

(** Lines 190-221: [user_input] starts with "/send"; [n] calls of [sendall]
    have been made so far. *)
Definition send_command (user_input : text) (n : nat) : list effect * next :=
  match split_once user_input with
  | _ :: filepath :: _ =>
      match fs filepath with
      | NotAFile =>
          ([Act (Stdout (str "File not found: " ++ filepath))], Again)
      | ReadFails e =>
          ([Act (Stdout (str "Failed to read file: " ++ e))], Again)
      | Contents file_data =>
          let proc := subprocess_run (gpg_encrypt recipient) file_data in
          let ran := Act (Run (gpg_encrypt recipient) file_data) in
          if (returncode proc =? 0)%Z then
            match file_header (basename filepath) with
            | None => ([ran], Stop (Crashed EncodeError))
            | Some header =>
                match wire n with
                | None =>
                    ([ran; Sendall (header ++ stdout proc) None;
                      Act (Stdout (str "[Sent file: " ++ filepath ++ str "]"))],
                     Again)
                | Some e =>
                    ([ran; Sendall (header ++ stdout proc) (Some e);
                      Act (Stdout (str "File send failed: " ++ e))],
                     Stop SendFailed)
                end
            end
          else
            match Utf8.decode (stderr proc) with
            | Some err =>
                ([ran;
                  Act (Stderr (str "Encryption error (file): " ++ err ++ [NL]))],
                 Again)
            | None => ([ran], Stop (Crashed DecodeError))
            end
      end
  | _ => ([Act (Stdout (str "Usage: /send <filepath>"))], Again)
  end.

(** Lines 222-232. *)
Definition send_message (user_input : text) (n : nat) : list effect * next :=
  match encrypt_message user_input with
  | (es, inl e) => (es, Stop (Crashed e))
  | (es, inr None) =>
      (es ++ [Act (Stdout (str "Failed to encrypt message. Not sent."))], Again)
  | (es, inr (Some cipher_bytes)) =>
      match wire n with
      | None => (es ++ [Sendall cipher_bytes None], Again)
      | Some e =>
          (es ++ [Sendall cipher_bytes (Some e);
                  Act (Stdout (str "Message send failed: " ++ e))],
           Stop SendFailed)
      end
  end.

(** Lines 185-232: what the loop does with one line. *)
Definition main_body (user_input : text) (n : nat) : list effect * next :=
  if negb (truthy user_input) then ([], Again)
  else if text_eqb (lower (strip user_input)) (str "/quit") then
    ([Act (Stdout (str "Closing connection..."))], Stop UserQuit)
  else if startswith (str "/send") user_input then send_command user_input n
  else send_message user_input n.

(** Lines 182-239, with the [finally] that closes the connection. *)
Fixpoint main_loop (n : nat) (keys : list keyboard) : list effect * ending :=
  match keys with
  | [] => ([], AtPrompt)
  | Line user_input :: rest =>
      match main_body user_input n with
      | (es, Again) =>
          let (es', e) := main_loop (n + sends es) rest in (es ++ es', e)
      | (es, Stop how) => (es ++ [Act Close], how)
      end
  | _ :: _ =>
      ([Act (Stdout ([NL] ++ str "Exiting chat...")); Act Close], Exiting)
  end.

End SendPath.

(** ** Terms for the properties of the command line and the send path *)

Definition listen_options : list text := [str "--listen"; str "-l"].
Definition connect_options : list text := [str "--connect"; str "-c"].
Definition port_options : list text := [str "--port"; str "-p"].
Definition key_options : list text := [str "--peer-key"; str "-r"].

(** The command lines made of complete options: a listen flag, or one of
    the three options that take a value, followed by its value, which for
    the port must be a number [int] reads. *)
Inductive well_formed (int : text -> option Z) : list text -> Prop :=
| wf_end : well_formed int []
| wf_listen a rest :
    is_one_of a listen_options = true ->
    well_formed int rest -> well_formed int (a :: rest)
| wf_connect a v rest :
    is_one_of a connect_options = true ->
    well_formed int rest -> well_formed int (a :: v :: rest)
| wf_port a v n rest :
    is_one_of a port_options = true -> int v = Some n ->
    well_formed int rest -> well_formed int (a :: v :: rest)
| wf_key a v rest :
    is_one_of a key_options = true ->
    well_formed int rest -> well_formed int (a :: v :: rest).

(** [data] is what [gpg --encrypt --armor -r recipient] wrote for some
    input it accepted, bare or behind the header of a file whose name has no
    slash in it. *)
Definition ciphertext_for (run : list text -> bytes -> CompletedProcess)
    (recipient : text) (data : bytes) : Prop :=
  exists input,
    returncode (run (gpg_encrypt recipient) input) = 0%Z /\
    (data = stdout (run (gpg_encrypt recipient) input) \/
     exists name header,
       contains SLASH name = false /\
       file_header name = Some header /\
       data = header ++ stdout (run (gpg_encrypt recipient) input)).

Definition is_close (e : effect) : bool :=
  match e with Act Close => true | _ => false end.

(** No [connection.close()] in a trace of the main thread. *)
Definition open_throughout (es : list effect) : bool :=
  negb (existsb is_close es).

(** Neither [connection.close()] nor [os._exit] in a trace of the receive
    thread. *)
Definition calm (acts : list action) : bool :=
  forallb (fun a => match a with Close | Exit _ => false | _ => true end) acts.

(** The calls of [gpg] in a trace of the receive thread. *)
Definition gpg_calls (acts : list action) : nat :=
  length (filter (fun a => match a with Run _ _ => true | _ => false end) acts).

(** * Properties *)

(** ** UTF-8 on ASCII text *)

Lemma byte_of_N_to_N (c : N) : c < 256 -> Byte.to_N (byte_of_N c) = c.
Proof.
  intros Hc. unfold byte_of_N.
  pose proof (Byte.to_of_N_option_map c) as H.
  destruct (Byte.of_N c) as [x|] eqn:E; simpl in H.
  - destruct (c <=? 255); congruence.
  - destruct (c <=? 255) eqn:L; [discriminate|].
    apply N.leb_gt in L. lia.
Qed.

Lemma lead_byte_ascii (c : N) : c < 128 -> Utf8.lead_byte c = Utf8.Emit c.
Proof.
  intros Hc. unfold Utf8.lead_byte.
  destruct (c <? 128) eqn:E; [reflexivity|].
  apply N.ltb_ge in E. lia.
Qed.

Lemma encode_ascii (t : text) :
  ascii_text t -> Utf8.encode t = Some (map byte_of_N t).
Proof.
  induction 1 as [|c t Hc _ IH]; [reflexivity|].
  simpl. rewrite IH. unfold Utf8.encode_cp.
  destruct (c <? 128) eqn:E; [reflexivity|].
  apply N.ltb_ge in E. lia.
Qed.

Lemma decode_ascii_app (t : text) (r : bytes) :
  ascii_text t ->
  Utf8.decode (map byte_of_N t ++ r) = option_map (app t) (Utf8.decode r).
Proof.
  unfold Utf8.decode.
  induction 1 as [|c t Hc _ IH]; simpl.
  - destruct (Utf8.decode_from Utf8.Start r); reflexivity.
  - rewrite byte_of_N_to_N by lia. rewrite lead_byte_ascii by exact Hc.
    rewrite IH. destruct (Utf8.decode_from Utf8.Start r); reflexivity.
Qed.

Lemma ascii_text_app (s t : text) :
  ascii_text s -> ascii_text t -> ascii_text (s ++ t).
Proof. unfold ascii_text. intros. apply Forall_app. split; assumption. Qed.

(** Inside a sequence the decoder never returns the empty text. *)
Lemma decode_from_cont_nonempty (r : bytes) :
  forall more acc lo hi,
    Utf8.decode_from (Utf8.Cont more acc lo hi) r <> Some [].
Proof.
  induction r as [|x r IH]; intros more acc lo hi; simpl; [discriminate|].
  destruct (Utf8.in_range lo hi (Byte.to_N x)); [|discriminate].
  destruct more as [|m].
  - destruct (Utf8.decode_from Utf8.Start r); simpl; discriminate.
  - apply IH.
Qed.

(** No first byte sends the decoder back to a scalar boundary without
    emitting a code point. *)
Lemma lead_byte_not_start (y : N) : Utf8.lead_byte y <> Utf8.Enter Utf8.Start.
Proof.
  unfold Utf8.lead_byte.
  repeat match goal with
         | |- context [if ?c then _ else _] => destruct c
         end; discriminate.
Qed.

(** Bytes that decode to the empty text are no bytes at all. *)
Lemma decode_empty_text (d : bytes) : Utf8.decode d = Some [] -> d = [].
Proof.
  unfold Utf8.decode. destruct d as [|x r]; [reflexivity|]. simpl.
  destruct (Utf8.lead_byte (Byte.to_N x)) as [cp|[|more acc lo hi]|] eqn:E.
  - destruct (Utf8.decode_from Utf8.Start r); simpl; discriminate.
  - exfalso. exact (lead_byte_not_start _ E).
  - intro H. exfalso. exact (decode_from_cont_nonempty _ _ _ _ _ H).
  - discriminate.
Qed.

(** ** The [str] methods *)

Lemma partition_spec (c : N) (t : text) :
  forall h s a, partition c t = (h, s, a) ->
    contains c h = false /\
    ((s = [] /\ a = [] /\ t = h) \/ (s = [c] /\ t = h ++ c :: a)).
Proof.
  induction t as [|x r IH]; simpl; intros h s a E.
  - inversion E; subst. split; [reflexivity|]. left. auto.
  - destruct (x =? c) eqn:X.
    + inversion E; subst. apply N.eqb_eq in X. subst.
      split; [reflexivity|]. right. auto.
    + destruct (partition c r) as [[h' s'] a'].
      inversion E; subst.
      destruct (IH _ _ _ eq_refl) as [Hc Hd].
      split.
      * simpl. rewrite N.eqb_sym, X. exact Hc.
      * destruct Hd as [(-> & -> & ->)|(-> & ->)]; [left|right]; auto.
Qed.

Lemma partition_found (c : N) (h a : text) :
  contains c h = false -> partition c (h ++ c :: a) = (h, [c], a).
Proof.
  induction h as [|x h IH]; simpl; intro H.
  - rewrite N.eqb_refl. reflexivity.
  - apply orb_false_iff in H. destruct H as [X H].
    rewrite N.eqb_sym, X, (IH H). reflexivity.
Qed.

Lemma partition_absent (c : N) (t : text) :
  contains c t = false -> partition c t = (t, [], []).
Proof.
  induction t as [|x t IH]; simpl; intro H; [reflexivity|].
  apply orb_false_iff in H. destruct H as [X H].
  rewrite N.eqb_sym, X, (IH H). reflexivity.
Qed.

Lemma contains_app (c : N) (s t : text) :
  contains c (s ++ t) = contains c s || contains c t.
Proof. unfold contains. apply existsb_app. Qed.

Lemma startswith_app (p r : text) : startswith p (p ++ r) = true.
Proof.
  induction p as [|x p IH]; simpl; [reflexivity|].
  rewrite N.eqb_refl. exact IH.
Qed.

Lemma startswith_inv (p : text) :
  forall t, startswith p t = true -> exists r, t = p ++ r.
Proof.
  induction p as [|x p IH]; intros t H.
  - exists t. reflexivity.
  - destruct t as [|y t]; simpl in H; [discriminate|].
    apply andb_true_iff in H. destruct H as [X H].
    apply N.eqb_eq in X. subst y.
    destruct (IH _ H) as [r ->]. exists r. reflexivity.
Qed.

(** The unlimited split, one separator at a time. *)
Lemma split_all_partition (c : N) (t : text) :
  split_all c t =
  match partition c t with
  | (h, [], _) => [h]
  | (h, _ :: _, a) => h :: split_all c a
  end.
Proof.
  induction t as [|x r IH]; simpl; [reflexivity|].
  destruct (x =? c); [reflexivity|].
  rewrite IH. destruct (partition c r) as [[h s] a].
  destruct s; reflexivity.
Qed.

(** [split(":", 2)] and the unlimited split agree on whether there is a
    second part and on what it is. *)
Lemma filename_of_split_all (header : text) :
  filename_of header =
  if (length (split_all COLON header) <? 2)%nat then str "received_file"
  else nth 1 (split_all COLON header) [].
Proof.
  unfold filename_of. simpl split.
  rewrite (split_all_partition COLON header).
  destruct (partition COLON header) as [[h s] a].
  destruct s as [|x s]; [reflexivity|].
  rewrite (split_all_partition COLON a).
  destruct (partition COLON a) as [[h2 s2] a2].
  destruct s2; reflexivity.
Qed.

(** A header that starts with "FILE:" always has a second part: what lies
    between its first colon and the next one, or the end. *)
Lemma filename_of_file_header (r : text) :
  filename_of (str "FILE:" ++ r) = fst (fst (partition COLON r)).
Proof.
  unfold filename_of.
  change (str "FILE:" ++ r) with (str "FILE" ++ COLON :: r).
  cbn [split]. rewrite partition_found by reflexivity.
  destruct (partition COLON r) as [[h s] a].
  destruct s; reflexivity.
Qed.

(** ** The socket *)

Lemma recv_fits (n : N) (d : bytes) (rest : stream) :
  N.of_nat (length d) <= n -> recv n (Chunk d :: rest) = (Data d, rest).
Proof.
  intro H. simpl. apply N.leb_le in H. rewrite H. reflexivity.
Qed.

Lemma recv_bound (n : N) (s s' : stream) (d : bytes) :
  recv n s = (Data d, s') -> N.of_nat (length d) <= n.
Proof.
  destruct s as [|[d0| |msg] rest]; simpl; intro E; try discriminate.
  - destruct (N.of_nat (length d0) <=? n) eqn:L; inversion E; subst.
    + apply N.leb_le. exact L.
    + rewrite length_firstn. lia.
  - inversion E; subst. simpl. lia.
Qed.

Lemma recv_bytes (n : N) (s s' : stream) (d : bytes) :
  recv n s = (Data d, s') ->
  stream_bytes s = (length d + stream_bytes s')%nat.
Proof.
  destruct s as [|[d0| |msg] rest]; simpl; intro E; try discriminate.
  - destruct (N.of_nat (length d0) <=? n); inversion E; subst; simpl.
    + reflexivity.
    + rewrite <- (firstn_skipn (N.to_nat n) d0) at 1.
      rewrite length_app. lia.
  - inversion E; subst. reflexivity.
Qed.

Lemma stream_bytes_chunk (d : bytes) (rest : stream) :
  (stream_bytes (Chunk d :: rest) - stream_bytes rest)%nat = length d.
Proof. cbn [stream_bytes fold_right]. fold (stream_bytes rest). lia. Qed.

Lemma recv_weight (n : N) (s s' : stream) (r : recv_result) :
  recv n s = (r, s') -> (weight s' <= weight s)%nat.
Proof.
  destruct s as [|[d0| |msg] rest]; simpl; intro E; inversion E; subst; simpl.
  - lia.
  - destruct (N.of_nat (length d0) <=? n); inversion H0; subst; simpl.
    + lia.
    + rewrite length_skipn. lia.
  - lia.
  - lia.
Qed.

Lemma recv_weight_data (n : N) (s s' : stream) (d : bytes) :
  recv n s = (Data d, s') -> d <> [] -> (weight s' < weight s)%nat.
Proof.
  destruct s as [|[d0| |msg] rest]; simpl; intros E Hd; try discriminate.
  - destruct (N.of_nat (length d0) <=? n); inversion E; subst; simpl.
    + lia.
    + rewrite length_skipn.
      destruct (N.to_nat n) as [|k]; [exfalso; apply Hd; reflexivity|].
      destruct d0; [exfalso; apply Hd; reflexivity|]. simpl. lia.
  - inversion E; subst. congruence.
Qed.

(** ** One pass of the receive loop *)

Lemma quiet_no_run (acts : list action) (argv : list text) (input : bytes) :
  quiet acts = true -> ~ In (Run argv input) acts.
Proof.
  unfold quiet. intros Q H.
  rewrite forallb_forall in Q. specialize (Q _ H). discriminate.
Qed.

Lemma quiet_written_to (acts : list action) :
  quiet acts = true -> written_to acts = [].
Proof.
  induction acts as [|a r IH]; [reflexivity|].
  simpl. intro Q. apply andb_true_iff in Q. destruct Q as [Qa Qr].
  destruct a; try discriminate; simpl; auto.
Qed.

Lemma calm_app (xs ys : list action) :
  calm (xs ++ ys) = calm xs && calm ys.
Proof. unfold calm. apply forallb_app. Qed.

Lemma calm_no_close (acts : list action) :
  calm acts = true -> ~ In Close acts.
Proof.
  induction acts as [|a r IH]; cbn [calm forallb In]; [tauto|].
  fold (calm r). intro C. apply andb_true_iff in C. destruct C as [Ca Cr].
  intros [E|I]; [subst a; discriminate | exact (IH Cr I)].
Qed.

Section Passes.

Variable run : list text -> bytes -> CompletedProcess.

Lemma is_file_true (data : bytes) :
  is_file (Utf8.decode data) = true <->
  exists t, Utf8.decode data = Some t /\ startswith (str "FILE:") t = true.
Proof.
  unfold is_file. split.
  - destruct (Utf8.decode data) as [t|]; [|discriminate].
    intro H. apply andb_true_iff in H. exists t. tauto.
  - intros (t & -> & H). rewrite H.
    destruct t; [discriminate|reflexivity].
Qed.

Lemma loop_body_file (s s' : stream) (data : bytes) (t : text) :
  recv 4096 s = (Data data, s') ->
  Utf8.decode data = Some t ->
  startswith (str "FILE:") t = true ->
  loop_body run s = receive_file run data t s'.
Proof.
  intros R D F. unfold loop_body. rewrite R.
  destruct data as [|x data]; [inversion D; subst; discriminate|].
  cbn [truthy negb]. rewrite D. unfold is_file. rewrite F.
  destruct t; [discriminate|reflexivity].
Qed.

Lemma loop_body_text (s s' : stream) (data : bytes) :
  recv 4096 s = (Data data, s') ->
  data <> [] ->
  is_file (Utf8.decode data) = false ->
  loop_body run s = receive_text run data s'.
Proof.
  intros R Hd F. unfold loop_body. rewrite R.
  destruct data as [|x data]; [congruence|].
  cbn [truthy negb].
  destruct (Utf8.decode (x :: data)) as [t|]; [|reflexivity].
  rewrite F. reflexivity.
Qed.

Lemma loop_body_eof (s s' : stream) :
  recv 4096 s = (Data [], s') ->
  loop_body run s =
  ([Stdout ([NL] ++ str "[Connection closed by peer]")], Break s').
Proof. intro R. unfold loop_body. rewrite R. reflexivity. Qed.

Lemma loop_body_error (s s' : stream) (msg : text) :
  recv 4096 s = (RecvRaises msg, s') ->
  loop_body run s =
  ([Stderr (str "Socket receive error: " ++ msg ++ [NL])], Break s').
Proof. intro R. unfold loop_body. rewrite R. reflexivity. Qed.

(** A text message goes to [gpg --decrypt] whole, before anything else
    happens. *)
Lemma receive_text_trace (data : bytes) (s : stream) :
  exists acts fl,
    receive_text run data s = (Run gpg_decrypt data :: acts, fl) /\
    stream_after fl = Some s /\
    quiet acts = true.
Proof.
  unfold receive_text, decrypt_message.
  destruct (returncode (run gpg_decrypt data) =? 0)%Z.
  - eexists _, _. repeat split.
  - destruct (Utf8.decode (stderr (run gpg_decrypt data))).
    + eexists _, _. repeat split.
    + eexists _, _. repeat split.
Qed.

(** A file name with a NUL character never reaches [gpg]: the pass ends in
    the [ValueError] of [subprocess.run]. *)
Lemma save_file_nul (filename : text) (cipher_bytes : bytes) (s : stream) :
  contains NUL filename = true ->
  save_file run filename cipher_bytes s = ([], Raised EmbeddedNull s).
Proof. intro Z. unfold save_file. rewrite Z. reflexivity. Qed.

Lemma save_file_trace (filename : text) (cipher_bytes : bytes) (s : stream) :
  contains NUL filename = false ->
  exists acts fl,
    save_file run filename cipher_bytes s =
      (Run (gpg_decrypt_to filename) cipher_bytes :: acts, fl) /\
    stream_after fl = Some s /\
    quiet acts = true.
Proof.
  intro Z. unfold save_file. rewrite Z.
  destruct (returncode (run (gpg_decrypt_to filename) cipher_bytes) =? 0)%Z.
  - eexists _, _. repeat split.
  - destruct (Utf8.decode (stderr (run (gpg_decrypt_to filename) cipher_bytes))).
    + eexists _, _. repeat split.
    + eexists _, _. repeat split.
Qed.

(** The file branch either stops before [gpg] is reached (the follow-up read
    blocks, raises, or returns bytes that are not UTF-8, or the file name
    holds a NUL) or runs [gpg --decrypt -o] once, on the tail of the chunk. *)
Lemma receive_file_trace (data : bytes) (t : text) (s : stream) :
  let header := fst (fst (partition NL t)) in
  fst (receive_file run data t s) = [] \/
  exists acts fl s',
    receive_file run data t s =
      (Run (gpg_decrypt_to (filename_of header))
           (slice_from (length header + 1) data) :: acts, fl) /\
    stream_after fl = Some s' /\ quiet acts = true.
Proof.
  unfold receive_file.
  destruct (partition NL t) as [[header sep] armored]. cbn [fst].
  assert (SF : forall s0,
            fst (save_file run (filename_of header)
                   (slice_from (length header + 1) data) s0) = [] \/
            exists acts fl s',
              save_file run (filename_of header)
                (slice_from (length header + 1) data) s0 =
                (Run (gpg_decrypt_to (filename_of header))
                     (slice_from (length header + 1) data) :: acts, fl) /\
              stream_after fl = Some s' /\ quiet acts = true).
  { intro s0. destruct (contains NUL (filename_of header)) eqn:Z.
    - left. rewrite save_file_nul by exact Z. reflexivity.
    - right. destruct (save_file_trace (filename_of header)
                         (slice_from (length header + 1) data) s0 Z)
        as (acts & fl & E & A & W).
      exists acts, fl, s0. auto. }
  destruct (text_eqb armored [] && text_eqb sep [NL]).
  - destruct (recv 65536 s) as [[more|msg|] s'].
    + destruct (truthy more); [destruct (Utf8.decode more)|].
      * apply SF.
      * left. reflexivity.
      * apply SF.
    + left. reflexivity.
    + left. reflexivity.
  - apply SF.
Qed.

(** Without a follow-up read the file branch is [save_file] on the socket
    as the first read left it. *)
Lemma receive_file_no_follow_up (data : bytes) (t header sep armored : text)
    (s : stream) :
  partition NL t = (header, sep, armored) ->
  armored <> [] ->
  receive_file run data t s =
  save_file run (filename_of header) (slice_from (length header + 1) data) s.
Proof.
  intros P A. unfold receive_file. rewrite P.
  unfold text_eqb at 1.
  destruct (list_eq_dec N.eq_dec armored []); [contradiction|].
  reflexivity.
Qed.

(** ** The loop ends *)

Lemma save_file_flow (filename : text) (cipher_bytes : bytes) (s : stream) :
  forall acts s', save_file run filename cipher_bytes s = (acts, Continue s') ->
                  s' = s.
Proof.
  unfold save_file. intros acts s'.
  destruct (contains NUL filename); [discriminate|].
  destruct (returncode _ =? 0)%Z; [intro E; inversion E; reflexivity|].
  destruct (Utf8.decode _); intro E; inversion E; reflexivity.
Qed.

Lemma receive_file_flow (data : bytes) (t : text) (s : stream) :
  forall acts s', receive_file run data t s = (acts, Continue s') ->
                  (weight s' <= weight s)%nat.
Proof.
  unfold receive_file. intros acts s'.
  destruct (partition NL t) as [[header sep] armored].
  destruct (text_eqb armored [] && text_eqb sep [NL]).
  - destruct (recv 65536 s) as [[more|msg|] s1] eqn:R; try discriminate.
    pose proof (recv_weight _ _ _ _ R) as W.
    destruct (truthy more); [destruct (Utf8.decode more); [|discriminate]|];
      intro E; apply save_file_flow in E; subst; exact W.
  - intro E. apply save_file_flow in E. subst. lia.
Qed.

Lemma receive_text_flow (data : bytes) (s : stream) :
  forall acts s', receive_text run data s = (acts, Continue s') -> s' = s.
Proof.
  unfold receive_text. intros acts s'.
  destruct (decrypt_message run data) as [a [e|[plain|]]];
    intro E; inversion E; reflexivity.
Qed.

Lemma loop_body_consumes (s : stream) :
  forall acts s', loop_body run s = (acts, Continue s') ->
                  (weight s' < weight s)%nat.
Proof.
  unfold loop_body. intros acts s'.
  destruct (recv 4096 s) as [[data|msg|] s1] eqn:R; try discriminate.
  destruct data as [|x data]; [discriminate|]. cbn [truthy negb].
  assert (W : (weight s1 < weight s)%nat)
    by (eapply recv_weight_data; [exact R | discriminate]).
  destruct (Utf8.decode (x :: data)) as [t|].
  - destruct (is_file (Some t)); intro E.
    + apply receive_file_flow in E. lia.
    + apply receive_text_flow in E. subst. exact W.
  - intro E. apply receive_text_flow in E. subst. exact W.
Qed.

Lemma receive_loop_finishes (fuel : nat) :
  forall s, (weight s < fuel)%nat -> snd (receive_loop run fuel s) <> Unfinished.
Proof.
  induction fuel as [|fuel IH]; intros s W; [lia|].
  simpl. destruct (loop_body run s) as [acts [s'| s'|e s'|]] eqn:B;
    try (simpl; discriminate).
  apply loop_body_consumes in B.
  specialize (IH s' ltac:(lia)).
  destruct (receive_loop run fuel s'). exact IH.
Qed.

(** The thread always comes to an end: it exits, dies of an exception
    nothing catches, or waits for ever in [recv]. *)
Lemma receive_thread_func_finishes (s : stream) :
  snd (receive_thread_func run s) <> Unfinished.
Proof. apply receive_loop_finishes. lia. Qed.

(** ** The connection stays open while the loop runs *)

Ltac crack_pass :=
  repeat match goal with
         | |- context [match ?x with _ => _ end] =>
             lazymatch x with
             | context [match _ with _ => _ end] => fail
             | snd _ => fail
             | fst _ => fail
             | _ => destruct x eqn:?
             end
         end.

(** No pass of the loop closes the connection or ends the process. *)
Lemma loop_body_calm (s : stream) : calm (fst (loop_body run s)) = true.
Proof.
  unfold loop_body, receive_file, receive_text, save_file, decrypt_message.
  cbv zeta. crack_pass; reflexivity.
Qed.

End Passes.

(** * The claims *)

Section Claims.

Variable run : list text -> bytes -> CompletedProcess.

(** ** C1: round trip *)

(** C1, as stated, fails.  The text message whose ciphertext is the six
    bytes "FILE:x" is a valid frame, goes out as those six bytes, and comes
    back from the receive path as a file transfer named "x" with an empty
    payload.  The file "a:b", which [/send a:b] sends with the header
    "FILE:a:b:", comes back under the name "a". *)
Lemma C1_frames_that_do_not_come_back :
  let f := {| frame_kind := TextMessage; frame_filename := [];
              frame_payload := b "FILE:x" |} in
  let g := {| frame_kind := FileTransfer; frame_filename := str "a:b";
              frame_payload := b "DATA" |} in
  (valid_frame MAX_PAYLOAD f = true /\
   encode f = Some (b "FILE:x") /\
   decode (gpg_accepting (b "hi")) [Chunk (b "FILE:x")] =
     Some ({| frame_kind := FileTransfer; frame_filename := str "x";
              frame_payload := [] |}, 6%nat) /\
   decode (gpg_accepting (b "hi")) [Chunk (b "FILE:x")] <>
     Some (f, length (b "FILE:x"))) /\
  (valid_frame MAX_PAYLOAD g = true /\
   send_file (str "a:b") (b "DATA") = encode g /\
   encode g = Some (b "FILE:a:b:" ++ [x0a] ++ b "DATA") /\
   decode (gpg_accepting (b "hi"))
          [Chunk (b "FILE:a:b:" ++ [x0a] ++ b "DATA")] =
     Some ({| frame_kind := FileTransfer; frame_filename := str "a";
              frame_payload := b "DATA" |}, 14%nat) /\
   decode (gpg_accepting (b "hi"))
          [Chunk (b "FILE:a:b:" ++ [x0a] ++ b "DATA")] <>
     Some (g, length (b "FILE:a:b:" ++ [x0a] ++ b "DATA"))).
Proof.
  cbv zeta. repeat split; try (vm_compute; reflexivity);
    vm_compute; discriminate.
Qed.

Lemma file_header_ascii (name : text) :
  ascii_text name ->
  file_header name = Some (map byte_of_N (str "FILE:" ++ name ++ [COLON; NL])).
Proof.
  intro H. unfold file_header. apply encode_ascii.
  apply ascii_text_app; [|apply ascii_text_app; [exact H|]];
    unfold ascii_text; repeat constructor.
Qed.

(** C1, amended: a frame that arrives in one read of at most 4096 bytes
    comes back as it was sent, and the pass takes exactly its bytes off the
    socket, when it is a non-empty text message that the "FILE:" test does
    not take for a file, or a file whose name is ASCII without colon,
    newline or NUL and whose ciphertext is non-empty UTF-8 text. *)
Theorem C1_round_trip_in_one_read (f : Frame) (w : bytes) (rest : stream) :
  encode f = Some w ->
  frame_payload f <> [] ->
  N.of_nat (length w) <= 4096 ->
  single_read_frame f ->
  decode run (Chunk w :: rest) = Some (f, length w).
Proof.
  destruct f as [k name payload]. unfold encode, single_read_frame.
  cbn [frame_kind frame_filename frame_payload].
  intros E Hp L V.
  pose proof (recv_fits 4096 w rest L) as R.
  destruct k.
  - destruct V as [-> V]. unfold send_text in E. inversion E; subst w.
    unfold decode. rewrite (loop_body_text run _ _ _ R Hp V).
    destruct (receive_text_trace run payload rest) as (acts & fl & T & A & _).
    rewrite T. cbn [received frame_of_action gpg_decrypt]. rewrite A.
    rewrite stream_bytes_chunk. reflexivity.
  - destruct V as (Ha & Hc & Hn & Hz & t & D).
    rewrite (file_header_ascii _ Ha) in E. cbn [option_map] in E.
    assert (Ew : w = map byte_of_N (str "FILE:" ++ name ++ [COLON; NL]) ++ payload)
      by (inversion E; reflexivity).
    clear E. subst w.
    assert (Ht : t <> []).
    { intro Z. subst t. apply decode_empty_text in D. contradiction. }
    assert (Dw : Utf8.decode
                   (map byte_of_N (str "FILE:" ++ name ++ [COLON; NL]) ++ payload)
                 = Some (str "FILE:" ++ (name ++ [COLON]) ++ NL :: t)).
    { rewrite decode_ascii_app.
      - rewrite D. cbn [option_map]. f_equal.
        rewrite <- !app_assoc. reflexivity.
      - apply ascii_text_app; [|apply ascii_text_app; [exact Ha|]];
          unfold ascii_text; repeat constructor. }
    unfold decode.
    rewrite (loop_body_file run _ _ _ _ R Dw (startswith_app _ _)).
    assert (P : partition NL (str "FILE:" ++ (name ++ [COLON]) ++ NL :: t)
                = (str "FILE:" ++ name ++ [COLON], [NL], t)).
    { rewrite app_assoc. apply partition_found.
      rewrite !contains_app, Hn. reflexivity. }
    rewrite (receive_file_no_follow_up run _ _ _ _ _ _ P Ht).
    rewrite filename_of_file_header.
    rewrite (partition_found COLON name [] Hc). cbn [fst].
    assert (S : slice_from (length (str "FILE:" ++ name ++ [COLON]) + 1)
                  (map byte_of_N (str "FILE:" ++ name ++ [COLON; NL]) ++ payload)
                = payload).
    { unfold slice_from.
      replace (length (str "FILE:" ++ name ++ [COLON]) + 1)%nat
        with (length (map byte_of_N (str "FILE:" ++ name ++ [COLON; NL]))).
      - rewrite skipn_app, skipn_all, Nat.sub_diag. reflexivity.
      - rewrite length_map, !length_app. simpl. lia. }
    rewrite S.
    destruct (save_file_trace run name payload rest Hz)
      as (acts & fl & T & A & _).
    rewrite T. cbn [received frame_of_action gpg_decrypt_to]. rewrite A.
    rewrite stream_bytes_chunk. reflexivity.
Qed.

(** A file name that is not ASCII moves the cut: [len(header)] counts
    characters where the slice of [data] needs bytes, so the name "e-acute"
    (two bytes) leaves the newline of the header in front of the
    ciphertext. *)
Lemma non_ascii_name_shifts_the_cut :
  let f := {| frame_kind := FileTransfer; frame_filename := [233];
              frame_payload := b "DATA" |} in
  encode f = Some (b "FILE:" ++ [xc3; xa9] ++ b ":" ++ [x0a] ++ b "DATA") /\
  decode (gpg_accepting (b "hi"))
         [Chunk (b "FILE:" ++ [xc3; xa9] ++ b ":" ++ [x0a] ++ b "DATA")] =
    Some ({| frame_kind := FileTransfer; frame_filename := [233];
             frame_payload := x0a :: b "DATA" |}, 13%nat).
Proof. cbv zeta. split; vm_compute; reflexivity. Qed.

(** ** C2: a frame delivered in two reads *)

Ltac file_pass_to_gpg :=
  match goal with
  | |- context [save_file ?r ?n ?c ?s] =>
      let acts := fresh "acts" in
      let fl := fresh "fl" in
      let T := fresh "T" in
      let A := fresh "A" in
      destruct (save_file_trace r n c s eq_refl) as (acts & fl & T & A & _);
      rewrite T; cbn [received frame_of_action gpg_decrypt_to]; rewrite A
  end.

(** C2 at the split right after the header: the file "a.txt" with the
    one-byte ciphertext "X" arrives as the header chunk "FILE:a.txt:" with
    its newline, and then "X".  The pass that reads the header reads the
    second chunk as well (line 152) and then cuts the ciphertext out of the
    first chunk alone (line 154): [gpg] is run on no bytes at all, and both
    chunks are gone from the socket. *)
Theorem C2_payload_after_the_header_is_dropped :
  let f := {| frame_kind := FileTransfer; frame_filename := str "a.txt";
              frame_payload := b "X" |} in
  let first := b "FILE:a.txt:" ++ [x0a] in
  let second := b "X" in
  encode f = Some (first ++ second) /\
  decode run [Chunk first; Chunk second] =
    Some ({| frame_kind := FileTransfer; frame_filename := str "a.txt";
             frame_payload := [] |}, 13%nat).
Proof.
  cbv zeta. split; [vm_compute; reflexivity|].
  unfold decode.
  rewrite (loop_body_file run _ [Chunk (b "X")] (b "FILE:a.txt:" ++ [x0a])
             (str "FILE:a.txt:" ++ [NL]))
    by (vm_compute; reflexivity).
  replace (receive_file run (b "FILE:a.txt:" ++ [x0a])
             (str "FILE:a.txt:" ++ [NL]) [Chunk (b "X")])
    with (save_file run (str "a.txt") [] [])
    by (cbv -[save_file]; reflexivity).
  file_pass_to_gpg. reflexivity.
Qed.

(** ** C3: where a frame ends *)

(** C3, as stated, fails: the text message with the one-byte ciphertext "A"
    goes out as that one byte, which leaves no room for a length field; and
    the same two bytes "AB" are one unit when they come in one read and
    the unit "A" when they come in two. *)
Lemma C3_text_message_goes_out_without_a_length :
  let f := {| frame_kind := TextMessage; frame_filename := [];
              frame_payload := b "A" |} in
  valid_frame MAX_PAYLOAD f = true /\
  encode f = Some (b "A") /\
  ~ carries_length (b "A") (frame_payload f) /\
  option_map (fun r => frame_payload (fst r))
    (decode (gpg_accepting (b "hi")) [Chunk (b "AB")]) = Some (b "AB") /\
  option_map (fun r => frame_payload (fst r))
    (decode (gpg_accepting (b "hi")) [Chunk (b "A"); Chunk (b "B")]) = Some (b "A").
Proof.
  cbv zeta. repeat split; try (vm_compute; reflexivity).
  intros [pre H]. apply (f_equal (@length byte)) in H.
  rewrite !length_app in H. simpl in H. lia.
Qed.

(** Every [gpg] call of a pass gets a tail of the bytes its first read
    returned. *)
Lemma loop_body_runs_on_tail (s s' : stream) (data : bytes) :
  recv 4096 s = (Data data, s') ->
  forall argv input, In (Run argv input) (fst (loop_body run s)) ->
    exists k, input = skipn k data.
Proof.
  intros R argv input. unfold loop_body. rewrite R.
  destruct (negb (truthy data)).
  { simpl. intros [H|[]]. discriminate. }
  assert (TX : In (Run argv input) (fst (receive_text run data s')) ->
               exists k, input = skipn k data).
  { destruct (receive_text_trace run data s') as (acts & fl & E & _ & Q).
    rewrite E. cbn [fst]. intros [H|H].
    - inversion H. exists O. reflexivity.
    - exfalso. exact (quiet_no_run _ _ _ Q H). }
  destruct (Utf8.decode data) as [t|]; [|exact TX].
  destruct (is_file (Some t)); [|exact TX].
  destruct (receive_file_trace run data t s') as [E|(acts & fl & s2 & E & _ & Q)].
  - rewrite E. intros [].
  - rewrite E. cbn [fst]. intros [H|H].
    + inversion H. eexists. reflexivity.
    + exfalso. exact (quiet_no_run _ _ _ Q H).
Qed.

(** C3, amended: the encoding has no length field, what goes out before the
    ciphertext is the same whatever the ciphertext is (nothing for a text
    message, the "FILE:" header for a file); and the receiver takes a unit
    to end where the bytes of one read of at most 4096 bytes end: the
    payload it hands on is a tail of those bytes. *)
Theorem C3_unit_ends_where_the_read_ends :
  (forall f w, encode f = Some w ->
     exists header,
       w = header ++ frame_payload f /\
       (frame_kind f = TextMessage -> header = []) /\
       (frame_kind f = FileTransfer ->
        file_header (frame_filename f) = Some header) /\
       forall payload,
         encode {| frame_kind := frame_kind f;
                   frame_filename := frame_filename f;
                   frame_payload := payload |} = Some (header ++ payload)) /\
  (forall s s' data f n,
     recv 4096 s = (Data data, s') ->
     decode run s = Some (f, n) ->
     N.of_nat (length data) <= 4096 /\
     exists k, frame_payload f = skipn k data).
Proof.
  split.
  - intros [k name payload] w. unfold encode.
    cbn [frame_kind frame_filename frame_payload].
    destruct k.
    + intro E. inversion E. exists []. repeat split; auto. discriminate.
    + destruct (file_header name) as [h|]; [|discriminate].
      intro E. inversion E. exists h. repeat split; auto. discriminate.
  - intros s s' data f n R D. split; [exact (recv_bound _ _ _ _ R)|].
    unfold decode in D.
    pose proof (loop_body_runs_on_tail s s' data R) as T.
    destruct (loop_body run s) as [acts fl]. cbn [fst] in T.
    destruct (received acts) as [g|] eqn:G; [|discriminate].
    destruct (stream_after fl); [|discriminate].
    inversion D; subst g. clear D.
    revert G T. clear. induction acts as [|a r IH]; [discriminate|].
    cbn [received]. intros G T.
    destruct (frame_of_action a) as [g|] eqn:A.
    + inversion G; subst g.
      destruct a as [argv input| | | |]; try discriminate.
      assert (P : frame_payload f = input).
      { destruct argv as [|? [|? [|? [|? [|? ?]]]]]; inversion A; reflexivity. }
      rewrite P. apply (T argv). left. reflexivity.
    + apply IH; [exact G|]. intros argv input H. apply (T argv). right. exact H.
Qed.

(** ** C4: a decryption failure *)

(** When [gpg] fails on a text message and what it says on its standard
    error is UTF-8, the failure is reported and the loop goes on with the
    socket as the read left it. *)
Lemma decryption_failure_reported (data : bytes) (s : stream) (err : text) :
  returncode (run gpg_decrypt data) <> 0%Z ->
  Utf8.decode (stderr (run gpg_decrypt data)) = Some err ->
  receive_text run data s =
  ([Run gpg_decrypt data;
    Stderr (str "Decryption error: " ++ err ++ [NL]);
    Stdout (str "[Could not decrypt incoming message]")],
   Continue s).
Proof.
  intros F E. unfold receive_text, decrypt_message.
  apply Z.eqb_neq in F. rewrite F, E. reflexivity.
Qed.

(** The same for a file, when [gpg] is started at all. *)
Lemma file_decryption_failure_reported (filename : text) (cipher_bytes : bytes)
    (s : stream) (err : text) :
  contains NUL filename = false ->
  returncode (run (gpg_decrypt_to filename) cipher_bytes) <> 0%Z ->
  Utf8.decode (stderr (run (gpg_decrypt_to filename) cipher_bytes)) = Some err ->
  save_file run filename cipher_bytes s =
  ([Run (gpg_decrypt_to filename) cipher_bytes;
    Stderr (str "File decryption error: " ++ err ++ [NL])],
   Continue s).
Proof.
  intros Z F E. unfold save_file.
  apply Z.eqb_neq in F. rewrite Z, F, E. reflexivity.
Qed.

(** A pass that ends in [Continue] is followed by the passes a fresh loop
    would make on what is left of the socket. *)
Lemma receive_loop_continue (fuel : nat) (s s' : stream) (acts : list action) :
  loop_body run s = (acts, Continue s') ->
  receive_loop run (S fuel) s =
  (acts ++ fst (receive_loop run fuel s'), snd (receive_loop run fuel s')).
Proof.
  intro B. cbn [receive_loop]. rewrite B.
  destruct (receive_loop run fuel s'). reflexivity.
Qed.

(** A text message [gpg] cannot decrypt, with a diagnostic that is UTF-8,
    costs the loop nothing: the failure is reported and the passes that
    follow are those of a fresh loop on the rest of the stream. *)
Lemma loop_survives_decryption_failure (fuel : nat) (s s' : stream)
    (data : bytes) (err : text) :
  recv 4096 s = (Data data, s') ->
  data <> [] ->
  is_file (Utf8.decode data) = false ->
  returncode (run gpg_decrypt data) <> 0%Z ->
  Utf8.decode (stderr (run gpg_decrypt data)) = Some err ->
  receive_loop run (S fuel) s =
  ([Run gpg_decrypt data;
    Stderr (str "Decryption error: " ++ err ++ [NL]);
    Stdout (str "[Could not decrypt incoming message]")]
   ++ fst (receive_loop run fuel s'),
   snd (receive_loop run fuel s')).
Proof.
  intros R Hd F Rc E.
  apply receive_loop_continue.
  rewrite (loop_body_text run _ _ _ R Hd F).
  apply decryption_failure_reported; assumption.
Qed.

(** C4 where the code breaks it: [gpg] cannot decrypt the chunk "x" and
    writes the single byte FF, which is not UTF-8, to its standard error.
    Decoding that diagnostic inside the handler (line 99) raises
    [UnicodeDecodeError], which nothing catches: the thread dies after one
    call of [gpg], and the chunk "y", which [gpg] would decrypt, is never
    read. *)
Theorem C4_undecodable_diagnostic_ends_the_receive_path :
  let gpg := gpg_rejecting (b "x") [xff] (b "hello") in
  returncode (gpg gpg_decrypt (b "y")) = 0%Z /\
  receive_thread_func gpg [Chunk (b "x"); Chunk (b "y"); Eof] =
    ([Run gpg_decrypt (b "x")], Died UnicodeDecodeError).
Proof. cbv zeta. split; vm_compute; reflexivity. Qed.

(** ** C5: the file name the peer declares *)

(** The send path puts a bare file name in the header. *)
Lemma basename_has_no_separator (p : text) :
  contains SLASH (basename p) = false.
Proof.
  induction p as [|x r IH]; [reflexivity|].
  cbn [basename].
  destruct (contains SLASH r) eqn:C; [exact IH|].
  destruct (x =? SLASH) eqn:X; [exact C|].
  cbn [contains existsb]. fold (contains SLASH r).
  rewrite N.eqb_sym, X, C. reflexivity.
Qed.

(** C5 where the code breaks it: the chunk "FILE:../x:" followed by a
    newline and the ciphertext "DATA" makes the receive path ask [gpg] to
    write to "../x", a path with a separator in it that leaves the
    directory. *)
Theorem C5_declared_path_reaches_gpg_unchanged (rest : stream) :
  let data := b "FILE:../x:" ++ [x0a] ++ b "DATA" in
  (exists acts,
     fst (loop_body run (Chunk data :: rest)) =
       Run (gpg_decrypt_to (str "../x")) (b "DATA") :: acts) /\
  written_to (fst (loop_body run (Chunk data :: rest))) = [str "../x"] /\
  contains SLASH (str "../x") = true.
Proof.
  cbv zeta.
  rewrite (loop_body_file run _ rest (b "FILE:../x:" ++ [x0a] ++ b "DATA")
             (str "FILE:../x:" ++ [NL] ++ str "DATA"))
    by (vm_compute; reflexivity).
  replace (receive_file run (b "FILE:../x:" ++ [x0a] ++ b "DATA")
             (str "FILE:../x:" ++ [NL] ++ str "DATA") rest)
    with (save_file run (str "../x") (b "DATA") rest)
    by (cbv -[save_file]; reflexivity).
  destruct (save_file_trace run (str "../x") (b "DATA") rest eq_refl)
    as (acts & fl & T & _ & Q).
  rewrite T. cbn [fst]. repeat split.
  - exists acts. reflexivity.
  - cbn [written_to gpg_decrypt_to]. rewrite (quiet_written_to _ Q). reflexivity.
Qed.

(** ** C6: a declared length above the maximum *)

(** C6, as stated, fails: five bytes that, read as the specification's
    header of a text frame, declare a payload of 4294967295 bytes are handed
    to [gpg] as a text message like any other chunk; [gpg] fails on them,
    the failure is reported, and the next chunk is decrypted and shown.  The
    session ends only at the end of the stream. *)
Lemma C6_oversize_declaration_is_just_a_text_message :
  let chunk := x00 :: be32 4294967295 in
  let gpg := gpg_rejecting chunk (b "gpg: no valid OpenPGP data found.")
                           (b "hello") in
  MAX_PAYLOAD < 4294967295 /\
  receive_thread_func gpg [Chunk chunk; Chunk (b "next"); Eof] =
    ([Run gpg_decrypt chunk;
      Stderr (str "Decryption error: gpg: no valid OpenPGP data found."
              ++ [NL]);
      Stdout (str "[Could not decrypt incoming message]");
      Run gpg_decrypt (b "next");
      Stdout ([NL] ++ str "Peer: hello");
      Stdout ([NL] ++ str "[Connection closed by peer]");
      Close; Exit 0],
     Exited 0).
Proof. cbv zeta. split; vm_compute; reflexivity. Qed.

Lemma save_file_no_break (filename : text) (cipher_bytes : bytes) (s : stream) :
  breaks (snd (save_file run filename cipher_bytes s)) = false.
Proof.
  unfold save_file.
  destruct (contains NUL filename); [reflexivity|].
  destruct (returncode _ =? 0)%Z; [reflexivity|].
  destruct (Utf8.decode _); reflexivity.
Qed.

Lemma receive_file_no_break (data : bytes) (t : text) (s : stream) :
  breaks (snd (receive_file run data t s)) = false.
Proof.
  unfold receive_file.
  destruct (partition NL t) as [[header sep] armored].
  destruct (text_eqb armored [] && text_eqb sep [NL]);
    [|apply save_file_no_break].
  destruct (recv 65536 s) as [[more|msg|] s']; try reflexivity.
  destruct (truthy more); [destruct (Utf8.decode more)|];
    try reflexivity; apply save_file_no_break.
Qed.

Lemma receive_text_no_break (data : bytes) (s : stream) :
  breaks (snd (receive_text run data s)) = false.
Proof.
  unfold receive_text.
  destruct (decrypt_message run data) as [acts [e|[plain|]]]; reflexivity.
Qed.

(** The loop is left exactly when the read at its head finds the end of the
    stream or raises. *)
Lemma loop_body_breaks (s : stream) :
  breaks (snd (loop_body run s)) = true <->
  (exists s', recv 4096 s = (Data [], s')) \/
  (exists msg s', recv 4096 s = (RecvRaises msg, s')).
Proof.
  unfold loop_body.
  destruct (recv 4096 s) as [[data|msg|] s'] eqn:R.
  - destruct data as [|x data]; cbn [truthy negb].
    + split; [intros _; left; eauto | reflexivity].
    + split.
      * intro H. exfalso.
        destruct (Utf8.decode (x :: data)) as [t|];
          [destruct (is_file (Some t))|].
        -- rewrite receive_file_no_break in H. discriminate.
        -- rewrite receive_text_no_break in H. discriminate.
        -- rewrite receive_text_no_break in H. discriminate.
      * intros [[s1 E]|[msg [s1 E]]]; discriminate.
  - split; [intros _; right; eauto | reflexivity].
  - split; [discriminate|].
    intros [[s1 E]|[msg [s1 E]]]; discriminate.
Qed.

(** The thread closes the connection exactly when one of its passes leaves
    the loop by [break], and that is the only way it ends the process. *)
Lemma receive_loop_closes (fuel : nat) :
  forall s,
    (In Close (fst (receive_loop run fuel s)) <->
     exists s0, In s0 (passes run fuel s) /\
                breaks (snd (loop_body run s0)) = true) /\
    (snd (receive_loop run fuel s) = Exited 0 <->
     In Close (fst (receive_loop run fuel s))).
Proof.
  induction fuel as [|fuel IH]; intro s; cbn [receive_loop passes].
  - cbn [fst snd In]. split; split; try tauto; try discriminate.
    intros (s0 & [] & _).
  - pose proof (loop_body_calm run s) as C. apply calm_no_close in C.
    destruct (loop_body run s) as [acts [s'|s'|e s'|]] eqn:E; cbn [fst] in C.
    + destruct (IH s') as [I1 I2].
      destruct (receive_loop run fuel s') as [acts' st]. cbn [fst snd] in *.
      split.
      * rewrite in_app_iff. split.
        -- intros [H|H]; [contradiction|].
           apply I1 in H. destruct H as (s0 & M & B).
           exists s0. split; [right; exact M | exact B].
        -- intros (s0 & [M|M] & B).
           ++ subst s0. rewrite E in B. discriminate.
           ++ right. apply I1. exists s0. split; assumption.
      * rewrite in_app_iff. rewrite I2. tauto.
    + cbn [fst snd]. split.
      * split.
        -- intros _. exists s. split; [left; reflexivity|].
           rewrite E. reflexivity.
        -- intros _. apply in_or_app. right. left. reflexivity.
      * split; [|reflexivity].
        intros _. apply in_or_app. right. left. reflexivity.
    + cbn [fst snd]. split.
      * split; [intro H; contradiction|].
        intros (s0 & [M|[]] & B). subst s0. rewrite E in B. discriminate.
      * split; [discriminate | intro H; contradiction].
    + cbn [fst snd]. split.
      * split; [intro H; contradiction|].
        intros (s0 & [M|[]] & B). subst s0. rewrite E in B. discriminate.
      * split; [discriminate | intro H; contradiction].
Qed.

(** C6, amended: the receive path reads no declared length and has no
    [PayloadTooLarge]: whatever a chunk contains, the bytes one pass hands
    to [gpg] are at most the 4096 bytes of one read; a pass leaves the loop
    by [break] exactly when the read at its head finds the end of the stream
    or raises, and no pass itself closes the connection or ends the process;
    the thread closes the connection exactly when one of its passes finds
    the end of the stream or an error at the read at its head, and it ends
    the process exactly when it closes the connection. *)
Theorem C6_no_declared_length_is_checked (s : stream) :
  (forall argv input,
     In (Run argv input) (fst (loop_body run s)) ->
     N.of_nat (length input) <= 4096) /\
  (breaks (snd (loop_body run s)) = true <->
   (exists s', recv 4096 s = (Data [], s')) \/
   (exists msg s', recv 4096 s = (RecvRaises msg, s'))) /\
  calm (fst (loop_body run s)) = true /\
  (In Close (fst (receive_thread_func run s)) <->
   exists s0,
     In s0 (passes run (S (weight s)) s) /\
     ((exists s', recv 4096 s0 = (Data [], s')) \/
      (exists msg s', recv 4096 s0 = (RecvRaises msg, s')))) /\
  (snd (receive_thread_func run s) = Exited 0 <->
   In Close (fst (receive_thread_func run s))).
Proof.
  split; [|split; [apply loop_body_breaks|split; [apply loop_body_calm|]]].
  - intros argv input H.
    destruct (recv 4096 s) as [[data|msg|] s'] eqn:R.
    + destruct (loop_body_runs_on_tail s s' data R argv input H) as [k ->].
      pose proof (recv_bound _ _ _ _ R) as L.
      rewrite length_skipn. lia.
    + rewrite (loop_body_error run s s' msg R) in H.
      destruct H as [H|[]]. discriminate.
    + unfold loop_body in H. rewrite R in H. destruct H.
  - unfold receive_thread_func.
    destruct (receive_loop_closes (S (weight s)) s) as [I1 I2].
    split; [|exact I2].
    rewrite I1. split; intros (s0 & M & B); exists s0; (split; [exact M|]);
      apply loop_body_breaks; exact B.
Qed.

(** What a chunk holds never closes the connection, but it can end the
    thread: the follow-up read of line 152 decodes what it reads outside
    any [try], and a file name with a NUL character makes [subprocess.run]
    raise a [ValueError] that line 161 does not catch.  In both cases the
    thread dies with the connection open, [gpg] never started and the rest
    of the stream unread. *)
Lemma chunk_content_can_end_the_thread :
  receive_thread_func run [Chunk (b "FILE:a:" ++ [x0a]); Chunk [xff]; Eof] =
    ([], Died UnicodeDecodeError) /\
  receive_thread_func run
    [Chunk (b "FILE:a" ++ [x00] ++ b "b:" ++ [x0a] ++ b "DATA"); Eof] =
    ([], Died EmbeddedNull).
Proof. split; vm_compute; reflexivity. Qed.

(** ** C7: connection set-up *)

(** C7: the address family is IPv6 exactly when a peer address was supplied
    and has a colon in it, IPv4 otherwise, and the socket is created with
    that family, as the first call, whether the program listens or
    connects; to listen, the program creates the socket, binds the wildcard
    host of that family ("::" or the empty host) on the port, listens and
    accepts once; to connect, it creates the socket and connects it to the
    peer address on the port; whichever calls fail, it makes the calls of
    its mode in that order up to the first that raises, creates no socket
    of another family, and never calls [accept] twice. *)
Theorem C7_family_and_single_accept (ok : sockcall -> bool)
    (LISTEN_MODE : bool) (PEER_ADDRESS : option text) (PORT : Z) :
  let family := family_of PEER_ADDRESS in
  let listening :=
    [SockCreate family; SockBind (bind_host family) PORT; SockListen 1;
     SockAccept] in
  let connecting := [SockCreate family; SockConnect PEER_ADDRESS PORT] in
  (family = AF_INET6 <->
   exists a, PEER_ADDRESS = Some a /\ contains COLON a = true) /\
  (family = AF_INET <->
   ~ exists a, PEER_ADDRESS = Some a /\ contains COLON a = true) /\
  bind_host AF_INET6 = str "::" /\
  bind_host AF_INET = [] /\
  establish (fun _ => true) true PEER_ADDRESS PORT = (listening, true) /\
  (exists n, fst (establish ok true PEER_ADDRESS PORT) = firstn n listening) /\
  accepts (fst (establish (fun _ => true) true PEER_ADDRESS PORT)) = 1%nat /\
  (accepts (fst (establish ok LISTEN_MODE PEER_ADDRESS PORT)) <= 1)%nat /\
  establish (fun _ => true) false PEER_ADDRESS PORT = (connecting, true) /\
  (exists n, fst (establish ok false PEER_ADDRESS PORT) = firstn n connecting) /\
  (exists rest,
     fst (establish ok LISTEN_MODE PEER_ADDRESS PORT) =
     SockCreate family :: rest) /\
  (forall f,
     In (SockCreate f) (fst (establish ok LISTEN_MODE PEER_ADDRESS PORT)) ->
     f = family).
Proof.
  cbv zeta.
  assert (F6 : family_of PEER_ADDRESS = AF_INET6 <->
               exists a, PEER_ADDRESS = Some a /\ contains COLON a = true).
  { unfold family_of. destruct PEER_ADDRESS as [a|].
    - destruct a as [|x a]; cbn [truthy andb].
      + split; [discriminate|]. intros (a & E & C). inversion E; subst.
        discriminate.
      + destruct (contains COLON (x :: a)) eqn:C.
        * split; [intros _; eauto | reflexivity].
        * split; [discriminate|]. intros (a' & E & C'). inversion E; subst.
          congruence.
    - split; [discriminate|]. intros (a & E & _). discriminate. }
  split; [exact F6|].
  split.
  { rewrite <- F6. destruct (family_of PEER_ADDRESS); split; congruence. }
  repeat split.
  - unfold establish. cbn [issue].
    destruct (ok (SockCreate _)); [|exists 1%nat; reflexivity].
    destruct (ok (SockBind _ _)); [|exists 2%nat; reflexivity].
    destruct (ok (SockListen _)); [|exists 3%nat; reflexivity].
    destruct (ok SockAccept); exists 4%nat; reflexivity.
  - unfold establish. destruct LISTEN_MODE; cbn [issue].
    + destruct (ok (SockCreate _)); [|cbn; lia].
      destruct (ok (SockBind _ _)); [|cbn; lia].
      destruct (ok (SockListen _)); [|cbn; lia].
      destruct (ok SockAccept); cbn; lia.
    + destruct (ok (SockCreate _)); [|cbn; lia].
      destruct (ok (SockConnect _ _)); cbn; lia.
  - unfold establish. cbn [issue].
    destruct (ok (SockCreate _)); [|exists 1%nat; reflexivity].
    destruct (ok (SockConnect _ _)); exists 2%nat; reflexivity.
  - unfold establish. destruct LISTEN_MODE; cbn [issue].
    + destruct (ok (SockCreate _)); [|eexists; reflexivity].
      destruct (ok (SockBind _ _)); [|eexists; reflexivity].
      destruct (ok (SockListen _)); [|eexists; reflexivity].
      destruct (ok SockAccept); eexists; reflexivity.
    + destruct (ok (SockCreate _)); [|eexists; reflexivity].
      destruct (ok (SockConnect _ _)); eexists; reflexivity.
  - intros f H.
    assert (S : forall calls,
              In (SockCreate f) (fst (issue ok calls)) ->
              In (SockCreate f) calls).
    { induction calls as [|c r IH]; cbn [issue]; [auto|].
      destruct (ok c).
      - destruct (issue ok r) as [done fin]. cbn [fst] in *.
        intros [E|I]; [left; exact E | right; exact (IH I)].
      - cbn [fst]. intros [E|[]]. left. exact E. }
    unfold establish in H. destruct LISTEN_MODE; apply S in H; cbn [In] in H;
      repeat (destruct H as [H|H]; try discriminate; try contradiction);
      inversion H; reflexivity.
Qed.

(** ** C8: the "FILE:" test *)

(** C8, as stated, fails for the chunk of the follow-up read: after the
    header chunk "FILE:a:" with its newline, the chunk "hello" is returned
    by a single read (line 152); it is not empty and does not start with
    "FILE:", yet it is never handed to [gpg]; the thread then runs to the
    end of the stream.  And a text message whose ciphertext begins with the
    bytes "FILE:" but is not UTF-8 (here the byte FF follows) is not taken
    for a file: it goes to [gpg --decrypt] whole. *)
Lemma C8_chunk_of_the_follow_up_read_is_not_dispatched :
  let gpg := gpg_accepting (b "hi") in
  let s := [Chunk (b "FILE:a:" ++ [x0a]); Chunk (b "hello"); Eof] in
  (recv 65536 (snd (recv 4096 s)) = (Data (b "hello"), [Eof]) /\
   is_file (Utf8.decode (b "hello")) = false /\
   existsb (runs_on (b "hello")) (fst (receive_thread_func gpg s)) = false /\
   fst (receive_thread_func gpg s) =
     [Run (gpg_decrypt_to (str "a")) [];
      Stdout ([NL] ++ str "[File received and saved as a]");
      Stdout ([NL] ++ str "[Connection closed by peer]");
      Close; Exit 0]) /\
  loop_body gpg [Chunk (send_text (b "FILE:" ++ [xff]))] =
    ([Run gpg_decrypt (b "FILE:" ++ [xff]);
      Stdout ([NL] ++ str "Peer: hi")],
     Continue []).
Proof. cbv zeta. repeat split; vm_compute; reflexivity. Qed.

(** C8, amended to the read at the head of the loop: a non-empty chunk that
    read returns is taken for a file transfer exactly when it decodes as
    UTF-8 and the text starts with "FILE:", and then the file branch runs
    on it; any other non-empty chunk goes through the text branch, which
    first of all runs [gpg --decrypt] on the whole chunk.  A text message
    whose ciphertext is UTF-8 text starting with "FILE:" is such a chunk and
    takes the file branch. *)
Theorem C8_dispatch_of_the_head_read (s s' : stream) (data : bytes) :
  recv 4096 s = (Data data, s') ->
  data <> [] ->
  (is_file (Utf8.decode data) = true <->
   exists t, Utf8.decode data = Some t /\ startswith (str "FILE:") t = true) /\
  (forall t, Utf8.decode data = Some t ->
             startswith (str "FILE:") t = true ->
             loop_body run s = receive_file run data t s') /\
  (is_file (Utf8.decode data) = false ->
   loop_body run s = receive_text run data s' /\
   exists acts, fst (loop_body run s) = Run gpg_decrypt data :: acts).
Proof.
  intros R Hd. split; [apply is_file_true|]. split.
  - intros t D F. exact (loop_body_file run _ _ _ _ R D F).
  - intro F. rewrite (loop_body_text run _ _ _ R Hd F).
    split; [reflexivity|].
    destruct (receive_text_trace run data s') as (acts & fl & E & _).
    rewrite E. exists acts. reflexivity.
Qed.

(** ** C9: the end of the stream and receive errors *)

(** At the head of the loop the end of the stream closes the connection and
    ends the process with exit code 0. *)
Lemma end_of_stream_exits (fuel : nat) (s s' : stream) :
  recv 4096 s = (Data [], s') ->
  receive_loop run (S fuel) s =
  ([Stdout ([NL] ++ str "[Connection closed by peer]"); Close; Exit 0],
   Exited 0).
Proof.
  intro R. cbn [receive_loop]. rewrite (loop_body_eof run _ _ R). reflexivity.
Qed.

(** So does an error of the read at the head of the loop. *)
Lemma head_read_error_exits (fuel : nat) (s s' : stream) (msg : text) :
  recv 4096 s = (RecvRaises msg, s') ->
  receive_loop run (S fuel) s =
  ([Stderr (str "Socket receive error: " ++ msg ++ [NL]); Close; Exit 0],
   Exited 0).
Proof.
  intro R. cbn [receive_loop]. rewrite (loop_body_error run _ _ _ R).
  reflexivity.
Qed.

(** C9 where the code breaks it: the header chunk "FILE:a:" with its
    newline sends the pass into the follow-up read (line 152), which no
    [try] guards; when that read raises, the exception leaves the thread
    function: the connection is not closed and the process does not
    exit.  When that read finds the end of the stream instead, the pass
    first runs [gpg] on the file, and the process exits only at the next
    read at the head of the loop. *)
Theorem C9_error_in_the_follow_up_read_is_not_caught :
  receive_thread_func run
    [Chunk (b "FILE:a:" ++ [x0a]); RecvError (str "Connection reset by peer")] =
  ([], Died (SocketError (str "Connection reset by peer"))) /\
  receive_thread_func (gpg_accepting (b "hi"))
    [Chunk (b "FILE:a:" ++ [x0a]); Eof] =
  ([Run (gpg_decrypt_to (str "a")) [];
    Stdout ([NL] ++ str "[File received and saved as a]");
    Stdout ([NL] ++ str "[Connection closed by peer]");
    Close; Exit 0],
   Exited 0).
Proof. split; vm_compute; reflexivity. Qed.

(** ** C10: the name the file is written to *)

(** The header line of a chunk that starts with "FILE:" starts with
    "FILE:". *)
Lemma header_line_starts_with_FILE (t : text) :
  startswith (str "FILE:") t = true ->
  exists r, fst (fst (partition NL t)) = str "FILE:" ++ r.
Proof.
  intro F. destruct (startswith_inv _ _ F) as [r ->].
  change (str "FILE:" ++ r) with (70 :: 73 :: 76 :: 69 :: 58 :: r).
  cbn [partition N.eqb NL Pos.eqb].
  destruct (partition NL r) as [[h sp] a].
  exists h. reflexivity.
Qed.

(** So it always has two colon-separated parts: the default name is never
    used. *)
Lemma header_line_has_two_parts (t : text) :
  startswith (str "FILE:") t = true ->
  (2 <= length (split_all COLON (fst (fst (partition NL t)))))%nat.
Proof.
  intro F. destruct (header_line_starts_with_FILE t F) as [r ->].
  change (str "FILE:" ++ r) with (str "FILE" ++ COLON :: r).
  rewrite split_all_partition, partition_found by reflexivity.
  rewrite split_all_partition.
  destruct (partition COLON r) as [[h sp] a].
  destruct sp; simpl; lia.
Qed.

(** A file name with a NUL character in it stops the file branch before
    [gpg] is started. *)
Lemma receive_file_nul (data : bytes) (t : text) (s : stream) :
  contains NUL (filename_of (fst (fst (partition NL t)))) = true ->
  fst (receive_file run data t s) = [].
Proof.
  unfold receive_file.
  destruct (partition NL t) as [[header sep] armored]. cbn [fst]. intro Z.
  destruct (text_eqb armored [] && text_eqb sep [NL]).
  - destruct (recv 65536 s) as [[more|msg|] s1]; try reflexivity.
    destruct (truthy more); [destruct (Utf8.decode more)|];
      try reflexivity; rewrite save_file_nul by exact Z; reflexivity.
  - rewrite save_file_nul by exact Z. reflexivity.
Qed.

(** C10: lines 145-148 take "received_file" for a header with fewer than
    two colon-separated parts and the second part, unchanged, otherwise.
    For a chunk taken for a file transfer, with [parts] the parts of its
    header line, that name is the only one a pass asks [gpg] to write to;
    the header line, which starts with "FILE:", always has two parts; and
    the pass does ask for the name whenever the chunk carries something
    after the header line and the name can be handed to a process, that is,
    has no NUL character in it; with one, nothing is written. *)
Theorem C10_file_name_is_the_second_field (s s' : stream) (data : bytes)
    (t : text) :
  recv 4096 s = (Data data, s') ->
  Utf8.decode data = Some t ->
  startswith (str "FILE:") t = true ->
  let header := fst (fst (partition NL t)) in
  let parts := split_all COLON header in
  let name := if (length parts <? 2)%nat then str "received_file"
              else nth 1 parts [] in
  (forall h,
     filename_of h =
     if (length (split_all COLON h) <? 2)%nat then str "received_file"
     else nth 1 (split_all COLON h) []) /\
  filename_of header = name /\
  (2 <= length parts)%nat /\
  (written_to (fst (loop_body run s)) = [name] \/
   written_to (fst (loop_body run s)) = []) /\
  (snd (partition NL t) <> [] -> contains NUL name = false ->
   written_to (fst (loop_body run s)) = [name]) /\
  (contains NUL name = true -> written_to (fst (loop_body run s)) = []).
Proof.
  intros R D F. cbv zeta.
  split; [exact filename_of_split_all|].
  split; [apply filename_of_split_all|].
  split; [exact (header_line_has_two_parts t F)|].
  rewrite (loop_body_file run _ _ _ _ R D F).
  rewrite <- filename_of_split_all.
  split; [|split].
  - destruct (receive_file_trace run data t s')
      as [E|(acts & fl & s2 & E & _ & Q)].
    + right. rewrite E. reflexivity.
    + left. rewrite E. cbn [fst written_to gpg_decrypt_to].
      rewrite (quiet_written_to _ Q). reflexivity.
  - destruct (partition NL t) as [[header sep] armored] eqn:P.
    cbn [fst snd]. intros A Z.
    rewrite (receive_file_no_follow_up run _ _ _ _ _ _ P A).
    destruct (save_file_trace run (filename_of header)
                (slice_from (length header + 1) data) s' Z)
      as (acts & fl & T & _ & Q).
    rewrite T. cbn [fst written_to gpg_decrypt_to].
    rewrite (quiet_written_to _ Q). reflexivity.
  - intro Z. rewrite (receive_file_nul data t s' Z). reflexivity.
Qed.

End Claims.

(** * The theorems at work on concrete chunks *)

(** The file "a.txt" with the ciphertext "DATA", arriving in one read. *)
Lemma C1_round_trip_in_one_read_witness :
  decode (gpg_accepting (b "hi"))
         [Chunk (b "FILE:a.txt:" ++ [x0a] ++ b "DATA")] =
  Some ({| frame_kind := FileTransfer; frame_filename := str "a.txt";
           frame_payload := b "DATA" |}, 16%nat).
Proof.
  apply (C1_round_trip_in_one_read (gpg_accepting (b "hi"))
           {| frame_kind := FileTransfer; frame_filename := str "a.txt";
              frame_payload := b "DATA" |}
           (b "FILE:a.txt:" ++ [x0a] ++ b "DATA") []).
  - vm_compute. reflexivity.
  - discriminate.
  - vm_compute. discriminate.
  - repeat split; try (vm_compute; reflexivity).
    + unfold ascii_text. repeat constructor.
    + exists (str "DATA"). vm_compute. reflexivity.
Defined.

(** The two bytes "AB" in one read are handed on whole. *)
Lemma C3_unit_ends_where_the_read_ends_witness :
  N.of_nat (length (b "AB")) <= 4096 /\
  exists k, b "AB" = skipn k (b "AB").
Proof.
  apply (proj2 (C3_unit_ends_where_the_read_ends (gpg_accepting (b "hi")))
           [Chunk (b "AB")] [] (b "AB")
           {| frame_kind := TextMessage; frame_filename := [];
              frame_payload := b "AB" |} 2%nat).
  - vm_compute. reflexivity.
  - vm_compute. reflexivity.
Defined.

(** The five bytes that declare 4294967295 more are what [gpg] is run on. *)
Lemma C6_no_declared_length_is_checked_witness :
  N.of_nat (length (x00 :: be32 4294967295)) <= 4096.
Proof.
  apply (proj1 (C6_no_declared_length_is_checked (gpg_accepting (b "hi"))
                  [Chunk (x00 :: be32 4294967295)])
           gpg_decrypt (x00 :: be32 4294967295)).
  vm_compute. left. reflexivity.
Defined.

(** The loopback address of IPv6 selects IPv6. *)
Lemma C7_family_and_single_accept_witness :
  family_of (Some (str "::1")) = AF_INET6.
Proof.
  apply (proj1 (C7_family_and_single_accept (fun _ => true) true
                  (Some (str "::1")) 9000)).
  exists (str "::1"). split; reflexivity.
Defined.

(** The text message whose ciphertext is "FILE:x" takes the file branch. *)
Lemma C8_dispatch_of_the_head_read_witness :
  loop_body (gpg_accepting (b "hi")) [Chunk (send_text (b "FILE:x"))] =
  receive_file (gpg_accepting (b "hi")) (b "FILE:x") (str "FILE:x") [].
Proof.
  apply (proj1 (proj2 (C8_dispatch_of_the_head_read (gpg_accepting (b "hi"))
                         [Chunk (send_text (b "FILE:x"))] [] (b "FILE:x")
                         ltac:(vm_compute; reflexivity)
                         ltac:(discriminate)))).
  - vm_compute. reflexivity.
  - vm_compute. reflexivity.
Defined.

(** The header "FILE:report.txt:" names the file "report.txt". *)
Lemma C10_file_name_is_the_second_field_witness :
  written_to (fst (loop_body (gpg_accepting (b "hi"))
                     [Chunk (b "FILE:report.txt:" ++ [x0a] ++ b "DATA")])) =
  [str "report.txt"].
Proof.
  apply (proj1 (proj2 (proj2 (proj2 (proj2
           (C10_file_name_is_the_second_field (gpg_accepting (b "hi"))
              [Chunk (b "FILE:report.txt:" ++ [x0a] ++ b "DATA")] []
              (b "FILE:report.txt:" ++ [x0a] ++ b "DATA")
              (str "FILE:report.txt:" ++ [NL] ++ str "DATA")
              ltac:(vm_compute; reflexivity)
              ltac:(vm_compute; reflexivity)
              ltac:(vm_compute; reflexivity))))))).
  - vm_compute. discriminate.
  - vm_compute. reflexivity.
Defined.

(** * Beyond the claims: the command line *)

Lemma text_eqb_eq (s t : text) : text_eqb s t = true <-> s = t.
Proof.
  unfold text_eqb. destruct (list_eq_dec N.eq_dec s t); split; congruence.
Qed.

Lemma is_one_of_pair (a x y : text) :
  is_one_of a [x; y] = true -> a = x \/ a = y.
Proof.
  unfold is_one_of. cbn [existsb]. rewrite orb_false_r.
  intro H. apply orb_true_iff in H.
  destruct H as [H|H]; apply text_eqb_eq in H; auto.
Qed.

Section CommandLineProperties.

Variable int : text -> option Z.

(** What a successful parse of a non-empty command line went through. *)
Lemma parse_args_cons (c c' : Config) (a : text) (rest : list text) :
  parse_args int c (a :: rest) = Parsed c' ->
  (is_one_of a listen_options = true /\
   parse_args int {| LISTEN_MODE := true; PEER_ADDRESS := PEER_ADDRESS c;
                     PORT := PORT c; PEER_GPG_ID := PEER_GPG_ID c |} rest
   = Parsed c') \/
  (exists v rest', rest = v :: rest' /\
     is_one_of a listen_options = false /\
     ((is_one_of a connect_options = true /\
       parse_args int {| LISTEN_MODE := LISTEN_MODE c; PEER_ADDRESS := Some v;
                         PORT := PORT c; PEER_GPG_ID := PEER_GPG_ID c |} rest'
       = Parsed c') \/
      (is_one_of a connect_options = false /\
       is_one_of a port_options = true /\
       exists n, int v = Some n /\
         parse_args int {| LISTEN_MODE := LISTEN_MODE c;
                           PEER_ADDRESS := PEER_ADDRESS c;
                           PORT := n; PEER_GPG_ID := PEER_GPG_ID c |} rest'
         = Parsed c') \/
      (is_one_of a connect_options = false /\
       is_one_of a port_options = false /\
       is_one_of a key_options = true /\
       parse_args int {| LISTEN_MODE := LISTEN_MODE c;
                         PEER_ADDRESS := PEER_ADDRESS c;
                         PORT := PORT c; PEER_GPG_ID := Some v |} rest'
       = Parsed c'))).
Proof.
  cbn [parse_args].
  fold listen_options connect_options port_options key_options.
  destruct (is_one_of a listen_options); [intro H; left; auto|].
  intro H. right.
  destruct (is_one_of a connect_options).
  { destruct rest as [|v rest']; [discriminate|].
    exists v, rest'. repeat split. left. auto. }
  destruct (is_one_of a port_options).
  { destruct rest as [|v rest']; [discriminate|].
    exists v, rest'. repeat split. right. left.
    destruct (int v) as [n|]; [|discriminate]. repeat split. eauto. }
  destruct (is_one_of a key_options); [|discriminate].
  destruct rest as [|v rest']; [discriminate|].
  exists v, rest'. repeat split. right. right. auto.
Qed.

Lemma parse_args_app_bounded (k : nat) :
  forall c c' xs ys,
    (length xs <= k)%nat ->
    parse_args int c xs = Parsed c' ->
    parse_args int c (xs ++ ys) = parse_args int c' ys.
Proof.
  induction k as [|k IH]; intros c c' xs ys L P.
  - destruct xs; [|simpl in L; lia]. simpl in P. inversion P. reflexivity.
  - destruct xs as [|a rest]; [simpl in P; inversion P; reflexivity|].
    simpl in L.
    destruct (parse_args_cons _ _ _ _ P)
      as [[A P']|(v & rest' & -> & A & [[B P']|[(B & C & n & I & P')|(B & C & D & P')]])];
      cbn [app parse_args];
      fold listen_options connect_options port_options key_options;
      rewrite ?A, ?B, ?C, ?D, ?I;
      apply IH; try exact P'; simpl in *; lia.
Qed.

(** X1.  Options are read from left to right and a later one builds on what
    the earlier ones set: when a command line parses, anything appended to
    it is parsed from the configuration it gave. *)
Theorem parse_args_app (c c' : Config) (xs ys : list text) :
  parse_args int c xs = Parsed c' ->
  parse_args int c (xs ++ ys) = parse_args int c' ys.
Proof. apply (parse_args_app_bounded (length xs)). lia. Qed.

Lemma option_kinds_disjoint (a : text) :
  (is_one_of a connect_options = true -> is_one_of a listen_options = false) /\
  (is_one_of a port_options = true ->
   is_one_of a listen_options = false /\ is_one_of a connect_options = false) /\
  (is_one_of a key_options = true ->
   is_one_of a listen_options = false /\ is_one_of a connect_options = false /\
   is_one_of a port_options = false).
Proof.
  split; [|split]; intro H; apply is_one_of_pair in H;
    destruct H as [-> | ->]; repeat split; reflexivity.
Qed.

Lemma parse_args_well_formed_bounded (k : nat) :
  forall c c' args,
    (length args <= k)%nat ->
    parse_args int c args = Parsed c' -> well_formed int args.
Proof.
  induction k as [|k IH]; intros c c' args L P.
  - destruct args; [constructor | simpl in L; lia].
  - destruct args as [|a rest]; [constructor|]. simpl in L.
    destruct (parse_args_cons _ _ _ _ P)
      as [[A P']|(v & rest' & -> & A & [[B P']|[(B & C & n & I & P')|(B & C & D & P')]])].
    + apply wf_listen; [exact A|].
      eapply IH; [|exact P']. lia.
    + apply wf_connect; [exact B|].
      eapply IH; [|exact P']. simpl in L. lia.
    + apply (wf_port int a v n); [exact C|exact I|].
      eapply IH; [|exact P']. simpl in L. lia.
    + apply wf_key; [exact D|].
      eapply IH; [|exact P']. simpl in L. lia.
Qed.

(** X2.  The command lines the parser accepts are exactly those made of
    complete options; every other one ends the program, with an error
    message and exit code 1 or with the [ValueError] of [int]. *)
Theorem parse_args_accepts (c : Config) (args : list text) :
  (exists c', parse_args int c args = Parsed c') <-> well_formed int args.
Proof.
  split.
  - intros [c' P].
    exact (parse_args_well_formed_bounded (length args) _ _ _ (le_n _) P).
  - intro W. revert c.
    induction W as [|a rest A _ IH|a v rest A _ IH|a v n rest A I _ IH
                   |a v rest A _ IH]; intro c.
    + exists c. reflexivity.
    + cbn [parse_args]. fold listen_options. rewrite A. apply IH.
    + destruct (option_kinds_disjoint a) as (D1 & _).
      cbn [parse_args]. fold listen_options connect_options.
      rewrite (D1 A), A. apply IH.
    + destruct (option_kinds_disjoint a) as (_ & D2 & _).
      destruct (D2 A) as [E1 E2].
      cbn [parse_args]. fold listen_options connect_options port_options.
      rewrite E1, E2, A, I. apply IH.
    + destruct (option_kinds_disjoint a) as (_ & _ & D3).
      destruct (D3 A) as (E1 & E2 & E3).
      cbn [parse_args].
      fold listen_options connect_options port_options key_options.
      rewrite E1, E2, E3, A. apply IH.
Qed.

Lemma parse_args_keeps_bounded (k : nat) :
  forall c c' args,
    (length args <= k)%nat ->
    parse_args int c args = Parsed c' ->
    (LISTEN_MODE c = true -> LISTEN_MODE c' = true) /\
    (PEER_ADDRESS c <> None -> PEER_ADDRESS c' <> None) /\
    (PEER_GPG_ID c <> None -> PEER_GPG_ID c' <> None).
Proof.
  induction k as [|k IH]; intros c c' args L P.
  - destruct args; [|simpl in L; lia]. simpl in P. inversion P. subst. auto.
  - destruct args as [|a rest]; [simpl in P; inversion P; subst; auto|].
    simpl in L.
    destruct (parse_args_cons _ _ _ _ P)
      as [[A P']|(v & rest' & -> & A & [[B P']|[(B & C & n & I & P')|(B & C & D & P')]])];
      apply IH in P'; try (simpl in L; lia);
      cbn [LISTEN_MODE PEER_ADDRESS PEER_GPG_ID] in P';
      destruct P' as (P1 & P2 & P3); repeat split; intros; auto;
      try (apply P2; discriminate); try (apply P3; discriminate).
Qed.

(** X3.  No option takes back what an earlier one set: listening stays
    switched on, and a peer address or a key identifier, once given, is
    only ever replaced by another. *)
Theorem parse_args_keeps_settings (c c' : Config) (args : list text) :
  parse_args int c args = Parsed c' ->
  (LISTEN_MODE c = true -> LISTEN_MODE c' = true) /\
  (PEER_ADDRESS c <> None -> PEER_ADDRESS c' <> None) /\
  (PEER_GPG_ID c <> None -> PEER_GPG_ID c' <> None).
Proof. apply (parse_args_keeps_bounded (length args)). lia. Qed.

End CommandLineProperties.

(** * Beyond the claims: from the command line to the socket *)

Lemma establish_calls (ok : sockcall -> bool) (listen : bool)
    (address : option text) (port : Z) (call : sockcall) :
  In call (fst (establish ok listen address port)) ->
  match call with
  | SockCreate f => f = family_of address
  | SockBind h p =>
      listen = true /\ h = bind_host (family_of address) /\ p = port
  | SockListen k => listen = true /\ k = 1%Z
  | SockAccept => listen = true
  | SockConnect h p => listen = false /\ h = address /\ p = port
  end.
Proof.
  unfold establish. destruct listen; cbn [issue].
  - destruct (ok (SockCreate _)); [|intros [<-|[]]; reflexivity].
    destruct (ok (SockBind _ _));
      [|intros [<-|[<-|[]]]; repeat split; reflexivity].
    destruct (ok (SockListen _));
      [|intros [<-|[<-|[<-|[]]]]; repeat split; reflexivity].
    destruct (ok SockAccept);
      intros [<-|[<-|[<-|[<-|[]]]]]; repeat split; reflexivity.
  - destruct (ok (SockCreate _)); [|intros [<-|[]]; reflexivity].
    destruct (ok (SockConnect _ _));
      intros [<-|[<-|[]]]; repeat split; reflexivity.
Qed.

Section StartupProperties.

Variable int : text -> option Z.

Lemma startup_sockets (args : list text) (env : option text)
    (ok : sockcall -> bool) (c : Config) (key : text)
    (calls : list sockcall) (connected : bool) :
  startup int args env ok = Sockets c key calls connected ->
  parse_args int defaults args = Parsed c /\
  (LISTEN_MODE c = true \/ PEER_ADDRESS c <> None) /\
  match PEER_GPG_ID c with
  | Some k => key = k
  | None => env = Some key
  end /\
  calls = fst (establish ok (LISTEN_MODE c) (PEER_ADDRESS c) (PORT c)).
Proof.
  unfold startup.
  destruct (parse_args int defaults args) as [c0| |]; try discriminate.
  destruct (LISTEN_MODE c0) eqn:L; cbn [negb andb].
  - destruct (PEER_GPG_ID c0) as [k|] eqn:K;
      [|destruct env as [k|]; [|discriminate]];
      destruct (establish ok true (PEER_ADDRESS c0) (PORT c0)) eqn:E;
      intro H; inversion H; subst; rewrite L, K, E; auto.
  - destruct (PEER_ADDRESS c0) as [a|] eqn:A; [|discriminate].
    destruct (PEER_GPG_ID c0) as [k|] eqn:K;
      [|destruct env as [k|]; [|discriminate]];
      destruct (establish ok false (Some a) (PORT c0)) eqn:E;
      intro H; inversion H; subst; rewrite L, K, A, E;
      repeat split; auto; right; discriminate.
Qed.

(** X4.  Once the program has come to its socket calls, it dials only when
    it was not told to listen, and then the address and the port of the
    command line, never a missing address; told to listen, it never dials,
    even when an address was given as well, and it binds and accepts only
    then. *)
Theorem startup_mode_discipline (args : list text) (env : option text)
    (ok : sockcall -> bool) (c : Config) (key : text)
    (calls : list sockcall) (connected : bool) :
  startup int args env ok = Sockets c key calls connected ->
  (forall host port, In (SockConnect host port) calls ->
     LISTEN_MODE c = false /\ port = PORT c /\
     exists a, host = Some a /\ PEER_ADDRESS c = Some a) /\
  (forall host port, In (SockBind host port) calls ->
     LISTEN_MODE c = true /\ port = PORT c) /\
  (In SockAccept calls -> LISTEN_MODE c = true).
Proof.
  intro S. destruct (startup_sockets _ _ _ _ _ _ _ S) as (_ & M & _ & ->).
  repeat split.
  - apply establish_calls in H. tauto.
  - apply establish_calls in H. tauto.
  - apply establish_calls in H. destruct H as (L & -> & _).
    destruct M as [M|M]; [congruence|].
    destruct (PEER_ADDRESS c) as [a|]; [eauto | congruence].
  - apply establish_calls in H. tauto.
  - apply establish_calls in H. tauto.
  - intro H. apply establish_calls in H. exact H.
Qed.

(** X5.  No socket is created without a key identifier, and the one of the
    command line goes before the one of the environment. *)
Theorem startup_key_precedence (args : list text) (env : option text)
    (ok : sockcall -> bool) (c : Config) (key : text)
    (calls : list sockcall) (connected : bool) :
  startup int args env ok = Sockets c key calls connected ->
  parse_args int defaults args = Parsed c /\
  (PEER_GPG_ID c = Some key \/ (PEER_GPG_ID c = None /\ env = Some key)).
Proof.
  intro S. destruct (startup_sockets _ _ _ _ _ _ _ S) as (P & _ & K & _).
  split; [exact P|].
  destruct (PEER_GPG_ID c) as [k|]; [left; congruence | right; auto].
Qed.

(** X6.  The program ends with exit code 0 before any socket call exactly
    when the command line parses and asks neither to listen nor to connect;
    it then prints the usage text, whether or not a key identifier is
    known. *)
Theorem startup_exit_zero (args : list text) (env : option text)
    (ok : sockcall -> bool) :
  let text :=
    str "Usage: secure_chat.py --listen [--port X] --peer-key <id>" ++ [NL] ++
    str "   or: secure_chat.py --connect <address> [--port X] --peer-key <id>"
    ++ [NL] in
  ((exists message, startup int args env ok = Exits 0 message) <->
   (exists c, parse_args int defaults args = Parsed c /\
              LISTEN_MODE c = false /\ PEER_ADDRESS c = None)) /\
  (startup int args env ok = Exits 0 text <->
   (exists c, parse_args int defaults args = Parsed c /\
              LISTEN_MODE c = false /\ PEER_ADDRESS c = None)) /\
  (forall message, startup int args env ok = Exits 0 message -> message = text).
Proof.
  cbv zeta.
  assert (A : forall message, startup int args env ok = Exits 0 message ->
                message = usage /\
                exists c, parse_args int defaults args = Parsed c /\
                          LISTEN_MODE c = false /\ PEER_ADDRESS c = None).
  { unfold startup. intros m H.
    destruct (parse_args int defaults args) as [c| |]; try discriminate.
    destruct (LISTEN_MODE c) eqn:L; cbn [negb andb] in H.
    - destruct (PEER_GPG_ID c); [|destruct env]; try discriminate;
        destruct (establish ok true (PEER_ADDRESS c) (PORT c)); discriminate.
    - destruct (PEER_ADDRESS c) as [a|] eqn:P.
      + destruct (PEER_GPG_ID c); [|destruct env]; try discriminate;
          destruct (establish ok false (Some a) (PORT c)); discriminate.
      + split; [inversion H; reflexivity|].
        exists c. auto. }
  assert (B : (exists c, parse_args int defaults args = Parsed c /\
                         LISTEN_MODE c = false /\ PEER_ADDRESS c = None) ->
              startup int args env ok = Exits 0 usage).
  { unfold startup. intros (c & -> & -> & ->). reflexivity. }
  split; [|split].
  - split; [intros [m H]; exact (proj2 (A m H)) | intro H; exists usage; auto].
  - split; [intro H; exact (proj2 (A _ H)) | exact B].
  - intros m H. exact (proj1 (A m H)).
Qed.

End StartupProperties.

(** * Beyond the claims: the send path *)

Section SendPathProperties.

Variable lower : text -> text.
Variable run : list text -> bytes -> CompletedProcess.
Variable fs : text -> file.
Variable wire : nat -> option text.
Variable recipient : text.

Let body := main_body lower run fs wire recipient.
Let loop := main_loop lower run fs wire recipient.

Ltac crack :=
  repeat match goal with
         | |- context [match ?x with _ => _ end] =>
             lazymatch x with
             | context [match _ with _ => _ end] => fail
             | snd _ => fail
             | _ => destruct x eqn:?
             end
         end.

Ltac members H :=
  repeat (destruct H as [H|H]; [try discriminate; try (inversion H; subst; clear H)|]);
  try contradiction.

(** What one line can put on the wire: at most one call of [sendall], of a
    ciphertext, with the outcome the wire has for that call. *)
Lemma main_body_sends (user_input : text) (n : nat) (data : bytes)
    (raised : option text) :
  In (Sendall data raised) (fst (body user_input n)) ->
  ciphertext_for run recipient data /\ raised = wire n.
Proof.
  unfold body, main_body, send_command, send_message, encrypt_message.
  cbv zeta. crack; cbn [fst app]; intro H; members H.
  all: match goal with
       | E : (returncode _ =? 0)%Z = true |- _ => apply Z.eqb_eq in E
       end.
  all: split; [|congruence].
  all: eexists; split; [eassumption|].
  all: try (left; reflexivity).
  all: right; eexists _, _; split; [apply basename_has_no_separator|];
    split; [eassumption|reflexivity].
Qed.

Lemma main_body_send_count (user_input : text) (n : nat) :
  (sends (fst (body user_input n)) <= 1)%nat.
Proof.
  unfold body, main_body, send_command, send_message, encrypt_message.
  cbv zeta. crack; cbn; lia.
Qed.

Lemma main_body_open (user_input : text) (n : nat) :
  open_throughout (fst (body user_input n)) = true.
Proof.
  unfold body, main_body, send_command, send_message, encrypt_message.
  cbv zeta. crack; reflexivity.
Qed.

Lemma main_body_not_at_prompt (user_input : text) (n : nat) (es : list effect) :
  main_body lower run fs wire recipient user_input n <> (es, Stop AtPrompt).
Proof.
  unfold main_body, send_command, send_message, encrypt_message.
  cbv zeta. crack; discriminate.
Qed.

(** A pass leaves the loop over a failed send exactly when its one call of
    [sendall] raised, and that call is then the last thing it did but for
    the message it prints. *)
Lemma main_body_failed_send (user_input : text) (n : nat) :
  match snd (body user_input n) with
  | Stop SendFailed =>
      exists pre data e say,
        fst (body user_input n) =
          pre ++ [Sendall data (Some e); Act (Stdout say)] /\
        sends pre = 0%nat
  | _ => forall data raised,
           In (Sendall data raised) (fst (body user_input n)) -> raised = None
  end.
Proof.
  unfold body, main_body, send_command, send_message, encrypt_message.
  cbv zeta. crack; cbn [fst snd app];
    try (intros data raised H; members H; reflexivity).
  all: try (eexists [_], _, _, _; split; reflexivity).
  all: try (eexists [], _, _, _; split; reflexivity).
Qed.

(** X7.  Nothing but ciphertext goes out: whatever is typed, whatever the
    files hold and whatever fails, every [sendall] of the main loop sends
    what [gpg --encrypt] wrote on a run that succeeded, bare for a message,
    and behind a "FILE:" header whose file name has no slash for a file. *)
Theorem only_ciphertext_is_sent (keys : list keyboard) :
  forall n data raised,
    In (Sendall data raised) (fst (loop n keys)) ->
    ciphertext_for run recipient data.
Proof.
  unfold loop.
  induction keys as [|[user_input| |] rest IH]; intros n data raised; cbn [main_loop].
  - intros [].
  - pose proof (main_body_sends user_input n data raised) as B.
    unfold body in B.
    destruct (main_body lower run fs wire recipient user_input n) as [es [|how]].
    + specialize (IH (n + sends es)%nat data raised).
      destruct (main_loop lower run fs wire recipient (n + sends es) rest)
        as [es' e].
      cbn [fst] in *. intro H. apply in_app_or in H.
      destruct H as [H|H]; [apply B; exact H | apply IH; exact H].
    + cbn [fst] in *. intro H. apply in_app_or in H.
      destruct H as [H|[H|[]]]; [apply B; exact H | discriminate].
  - cbn [fst]. intro H. members H.
  - cbn [fst]. intro H. members H.
Qed.

Lemma open_throughout_app (xs ys : list effect) :
  open_throughout (xs ++ ys) = open_throughout xs && open_throughout ys.
Proof.
  unfold open_throughout. rewrite existsb_app, negb_orb. reflexivity.
Qed.

(** X8.  The main loop closes the connection exactly once, as the very last
    thing it does, however it ends: by "/quit", by a failed send, by the
    end of the input or an interrupt, or by an exception nothing catches.
    As long as it waits for input, the connection has not been closed. *)
Theorem connection_closed_once_at_the_end (keys : list keyboard) :
  forall n,
    (snd (loop n keys) = AtPrompt ->
     open_throughout (fst (loop n keys)) = true) /\
    (snd (loop n keys) <> AtPrompt ->
     exists pre, fst (loop n keys) = pre ++ [Act Close] /\
                 open_throughout pre = true).
Proof.
  unfold loop.
  induction keys as [|[user_input| |] rest IH]; intro n; cbn [main_loop].
  - split; [reflexivity|]. intro H. exfalso. apply H. reflexivity.
  - pose proof (main_body_open user_input n) as O.
    destruct (main_body lower run fs wire recipient user_input n)
      as [es [|how]] eqn:N; unfold body in O; rewrite N in O.
    + specialize (IH (n + sends es)%nat).
      destruct (main_loop lower run fs wire recipient (n + sends es) rest)
        as [es' e].
      cbn [fst snd] in *. destruct IH as [I1 I2]. split.
      * intro E. rewrite open_throughout_app, O, (I1 E). reflexivity.
      * intro E. destruct (I2 E) as (pre & -> & P).
        exists (es ++ pre). rewrite app_assoc. split; [reflexivity|].
        rewrite open_throughout_app, O, P. reflexivity.
    + cbn [fst snd] in *. split.
      * intro E. subst how. exfalso.
        exact (main_body_not_at_prompt user_input n es N).
      * intros _. exists es. split; [reflexivity | exact O].
  - split; [discriminate|]. intros _.
    exists [Act (Stdout ([NL] ++ str "Exiting chat..."))].
    split; reflexivity.
  - split; [discriminate|]. intros _.
    exists [Act (Stdout ([NL] ++ str "Exiting chat..."))].
    split; reflexivity.
Qed.

Lemma no_sends_no_sendall (es : list effect) :
  sends es = 0%nat -> forall data raised, ~ In (Sendall data raised) es.
Proof.
  unfold sends. induction es as [|e es IH]; intros Z data raised; [tauto|].
  cbn [filter] in Z. destruct e as [a|d r]; cbn [is_send] in Z.
  - intros [H|H]; [discriminate|]. exact (IH Z _ _ H).
  - discriminate.
Qed.

(** X9.  A call of [sendall] that raises is the last one: the loop ends as
    a failed send exactly when some call raised, and that call is then
    followed by nothing but the message about it and the closing of the
    connection, every earlier call having gone through. *)
Theorem failed_send_is_the_last (keys : list keyboard) :
  forall n,
    (snd (loop n keys) = SendFailed <->
     exists data e, In (Sendall data (Some e)) (fst (loop n keys))) /\
    (snd (loop n keys) = SendFailed ->
     exists pre data e say,
       fst (loop n keys) =
         pre ++ [Sendall data (Some e); Act (Stdout say); Act Close] /\
       forall d r, In (Sendall d r) pre -> r = None).
Proof.
  unfold loop.
  induction keys as [|[user_input| |] rest IH]; intro n; cbn [main_loop].
  - split; [split; [discriminate|intros (d & e & [])] | discriminate].
  - pose proof (main_body_failed_send user_input n) as F. unfold body in F.
    destruct (main_body lower run fs wire recipient user_input n)
      as [es [|how]]; cbn [fst snd] in F.
    + specialize (IH (n + sends es)%nat).
      destruct (main_loop lower run fs wire recipient (n + sends es) rest)
        as [es' e].
      cbn [fst snd] in *. destruct IH as [[I1 I2] I3]. split; [split|].
      * intro E. destruct (I1 E) as (d & m & H). exists d, m.
        apply in_or_app. right. exact H.
      * intros (d & m & H). apply in_app_or in H. destruct H as [H|H].
        -- apply F in H. discriminate.
        -- apply I2. eauto.
      * intro E. destruct (I3 E) as (pre & d & m & say & -> & P).
        exists (es ++ pre), d, m, say. rewrite app_assoc.
        split; [reflexivity|].
        intros d' r H. apply in_app_or in H.
        destruct H as [H|H]; [exact (F _ _ H) | exact (P _ _ H)].
    + assert (C : forall d m, ~ In (Sendall d (Some m)) [Act Close])
        by (intros d m [H|[]]; discriminate).
      destruct how; cbn [fst snd].
      all: try (split; [split; [discriminate|
                 intros (d & m & H); apply in_app_or in H;
                 destruct H as [H|H]; [apply F in H; discriminate
                                      | exfalso; exact (C _ _ H)]]
               | discriminate]).
      destruct F as (pre & d & m & say & -> & Z). split; [split|].
      * intros _. exists d, m. apply in_or_app. left.
        apply in_or_app. right. left. reflexivity.
      * reflexivity.
      * intros _. exists pre, d, m, say. rewrite <- app_assoc.
        split; [reflexivity|].
        intros d' r H. exfalso. exact (no_sends_no_sendall _ Z _ _ H).
  - split; [split; [discriminate|intros (d & e & H); members H] | discriminate].
  - split; [split; [discriminate|intros (d & e & H); members H] | discriminate].
Qed.

(** X10.  A line that starts with "/send" never goes out as a chat message,
    however malformed the command is: in the pass that handles it, [gpg]
    is only ever run on the contents of a file, and what is sent is that
    file's ciphertext behind the header with the file's base name. *)
Theorem send_command_lines_send_files_only (user_input : text) (n : nat) :
  startswith (str "/send") user_input = true ->
  (forall argv input,
     In (Act (Run argv input)) (fst (body user_input n)) ->
     exists filepath, fs filepath = Contents input) /\
  (forall data raised,
     In (Sendall data raised) (fst (body user_input n)) ->
     exists filepath file_data header,
       fs filepath = Contents file_data /\
       file_header (basename filepath) = Some header /\
       data = header ++ stdout (run (gpg_encrypt recipient) file_data)).
Proof.
  intro S. unfold body, main_body, send_command. rewrite S. cbv zeta.
  split.
  - intros argv input. crack; cbn [fst]; intro H; members H; eauto.
  - intros data raised. crack; cbn [fst]; intro H; members H;
      eexists _, _, _; repeat split; eassumption.
Qed.

End SendPathProperties.

(** * Beyond the claims: the receive path *)

Lemma gpg_calls_quiet (acts : list action) :
  quiet acts = true -> gpg_calls acts = 0%nat.
Proof.
  unfold gpg_calls. induction acts as [|a r IH]; [reflexivity|].
  cbn [quiet forallb filter]. intro Q. apply andb_true_iff in Q.
  destruct Q as [Qa Qr]. destruct a; try discriminate; exact (IH Qr).
Qed.

(** [errors='ignore'] changes nothing for bytes that [errors='strict']
    accepts. *)
Lemma decode_ignore_of_valid (bs : bytes) :
  forall st t,
    Utf8.decode_from st bs = Some t -> Utf8.decode_ignore_from st bs = t.
Proof.
  induction bs as [|x r IH]; intros st t; cbn [Utf8.decode_from Utf8.decode_ignore_from].
  - destruct st; [intro H; inversion H; reflexivity | discriminate].
  - destruct st as [|more acc lo hi].
    + destruct (Utf8.lead_byte (Byte.to_N x)) as [cp|st'|]; [| |discriminate].
      * destruct (Utf8.decode_from Utf8.Start r) as [t'|] eqn:D; [|discriminate].
        cbn [option_map]. intro H. inversion H. f_equal. apply IH. exact D.
      * apply IH.
    + destruct (Utf8.in_range lo hi (Byte.to_N x)); [|discriminate].
      destruct more as [|m].
      * destruct (Utf8.decode_from Utf8.Start r) as [t'|] eqn:D; [|discriminate].
        cbn [option_map]. intro H. inversion H. f_equal. apply IH. exact D.
      * apply IH.
Qed.

Section ReceivePathProperties.

Variable run : list text -> bytes -> CompletedProcess.

Lemma receive_loop_exit_discipline (fuel : nat) :
  forall s,
    match snd (receive_loop run fuel s) with
    | Exited code =>
        code = 0%Z /\
        exists pre, fst (receive_loop run fuel s) = pre ++ [Close; Exit 0] /\
                    calm pre = true
    | _ => calm (fst (receive_loop run fuel s)) = true
    end.
Proof.
  induction fuel as [|fuel IH]; intro s; cbn [receive_loop]; [reflexivity|].
  pose proof (loop_body_calm run s) as C.
  destruct (loop_body run s) as [acts [s'|s'|e s'|]]; cbn [fst snd] in *.
  - specialize (IH s'). destruct (receive_loop run fuel s') as [acts' st].
    cbn [fst snd] in *. destruct st.
    + destruct IH as (-> & pre & -> & P). split; [reflexivity|].
      exists (acts ++ pre). rewrite app_assoc. split; [reflexivity|].
      rewrite calm_app, C, P. reflexivity.
    + rewrite calm_app, C, IH. reflexivity.
    + rewrite calm_app, C, IH. reflexivity.
    + rewrite calm_app, C, IH. reflexivity.
  - split; [reflexivity|]. exists acts. split; [reflexivity | exact C].
  - exact C.
  - exact C.
Qed.

(** X11.  The receive thread comes to an end on every stream, and when it
    ends the process it does so with exit code 0, having closed the
    connection just before and at no other time; when it dies of an
    exception or waits for ever in [recv], it has neither closed the
    connection nor ended the process. *)
Theorem receive_thread_exit_discipline (s : stream) :
  match snd (receive_thread_func run s) with
  | Exited code =>
      code = 0%Z /\
      exists pre, fst (receive_thread_func run s) = pre ++ [Close; Exit 0] /\
                  calm pre = true
  | Died _ => calm (fst (receive_thread_func run s)) = true
  | Waiting => calm (fst (receive_thread_func run s)) = true
  | Unfinished => False
  end.
Proof.
  pose proof (receive_thread_func_finishes run s) as F.
  pose proof (receive_loop_exit_discipline (S (weight s)) s) as D.
  unfold receive_thread_func in *.
  destruct (snd (receive_loop run (S (weight s)) s)); auto.
Qed.

(** X12.  One pass of the receive loop runs [gpg] at most once, whatever
    the chunk and whatever the follow-up read brings. *)
Theorem one_gpg_call_per_pass (s : stream) :
  (gpg_calls (fst (loop_body run s)) <= 1)%nat.
Proof.
  unfold loop_body.
  destruct (recv 4096 s) as [[data|msg|] s']; [|cbn; lia|cbn; lia].
  destruct (negb (truthy data)); [cbn; lia|].
  assert (TX : (gpg_calls (fst (receive_text run data s')) <= 1)%nat).
  { destruct (receive_text_trace run data s') as (acts & fl & E & _ & Q).
    rewrite E. cbn [fst]. unfold gpg_calls. cbn [filter length].
    fold (gpg_calls acts). rewrite (gpg_calls_quiet _ Q). lia. }
  destruct (Utf8.decode data) as [t|]; [|exact TX].
  destruct (is_file (Some t)); [|exact TX].
  destruct (receive_file_trace run data t s') as [E|(acts & fl & s2 & E & _ & Q)].
  - rewrite E. cbn. lia.
  - rewrite E. cbn [fst]. unfold gpg_calls. cbn [filter length].
    fold (gpg_calls acts). rewrite (gpg_calls_quiet _ Q). lia.
Qed.

(** X13.  Only a chunk that passes the "FILE:" test can make the receive
    path write a file: a pass that asks [gpg] for an output file has read
    bytes that decode as UTF-8 to a text starting with "FILE:".  A text
    message never touches the file system. *)
Theorem only_file_chunks_write_files (s : stream) :
  written_to (fst (loop_body run s)) <> [] ->
  exists data s' t,
    recv 4096 s = (Data data, s') /\
    Utf8.decode data = Some t /\
    startswith (str "FILE:") t = true.
Proof.
  unfold loop_body.
  destruct (recv 4096 s) as [[data|msg|] s'];
    [|intro H; exfalso; apply H; reflexivity
     |intro H; exfalso; apply H; reflexivity].
  destruct (negb (truthy data)); [intro H; exfalso; apply H; reflexivity|].
  assert (TX : written_to (fst (receive_text run data s')) = []).
  { destruct (receive_text_trace run data s') as (acts & fl & E & _ & Q).
    rewrite E. cbn [fst written_to gpg_decrypt].
    exact (quiet_written_to _ Q). }
  destruct (Utf8.decode data) as [t|] eqn:D; [|congruence].
  destruct (is_file (Some t)) eqn:F; [|congruence].
  intros _. exists data, s', t.
  split; [reflexivity|]. split; [exact D|].
  unfold is_file in F. apply andb_true_iff in F. tauto.
Qed.

(** X14.  A message [gpg] decrypts to bytes that are UTF-8 is shown as the
    text those bytes encode, nothing dropped and nothing added but the
    "Peer: " in front, and the loop goes on. *)
Theorem decrypted_text_is_shown_as_it_is (data : bytes) (s : stream)
    (plain : text) :
  returncode (run gpg_decrypt data) = 0%Z ->
  Utf8.decode (stdout (run gpg_decrypt data)) = Some plain ->
  receive_text run data s =
  ([Run gpg_decrypt data; Stdout ([NL] ++ str "Peer: " ++ plain)], Continue s).
Proof.
  intros R D. unfold receive_text, decrypt_message. rewrite R.
  cbn [Z.eqb app]. unfold Utf8.decode_ignore.
  rewrite (decode_ignore_of_valid _ _ _ D). reflexivity.
Qed.

End ReceivePathProperties.

(** * Beyond the claims: UTF-8 there and back *)

Lemma in_range_true (lo hi x : N) : lo <= x -> x <= hi -> Utf8.in_range lo hi x = true.
Proof.
  intros A B. unfold Utf8.in_range.
  apply andb_true_iff. split; apply N.leb_le; assumption.
Qed.

Ltac name_divmod cp :=
  let q1 := fresh "q" in let r1 := fresh "r" in
  let q2 := fresh "q" in let r2 := fresh "r" in
  let q3 := fresh "q" in let r3 := fresh "r" in
  pose proof (N.div_mod cp 64 ltac:(discriminate));
  pose proof (N.mod_lt cp 64 ltac:(discriminate));
  set (q1 := cp / 64) in *; set (r1 := cp mod 64) in *;
  pose proof (N.div_mod q1 64 ltac:(discriminate));
  pose proof (N.mod_lt q1 64 ltac:(discriminate));
  set (q2 := q1 / 64) in *; set (r2 := q1 mod 64) in *;
  pose proof (N.div_mod q2 64 ltac:(discriminate));
  pose proof (N.mod_lt q2 64 ltac:(discriminate));
  set (q3 := q2 / 64) in *; set (r3 := q2 mod 64) in *;
  clearbody q1 r1 q2 r2 q3 r3.

Ltac compare_all :=
  repeat match goal with
         | |- context [?a <? ?b] => destruct (N.ltb_spec a b); try lia
         | |- context [?a =? ?b] => destruct (N.eqb_spec a b); try lia
         end.

Ltac next_byte :=
  cbn [Utf8.decode_from]; rewrite ?byte_of_N_to_N by lia;
  rewrite ?in_range_true by lia.

(** One code point, whatever its length in bytes. *)
Lemma decode_encode_cp (cp : N) (r : bytes) :
  match Utf8.encode_cp cp with
  | Some bs =>
      Utf8.decode_from Utf8.Start (bs ++ r) =
      option_map (cons cp) (Utf8.decode_from Utf8.Start r)
  | None => True
  end.
Proof.
  unfold Utf8.encode_cp.
  replace (cp / 4096) with (cp / 64 / 64)
    by (rewrite N.Div0.div_div; reflexivity).
  replace (cp / 262144) with (cp / 64 / 64 / 64)
    by (rewrite !N.Div0.div_div; reflexivity).
  destruct (N.ltb_spec cp 0x80) as [C1|C1].
  { cbn [app Utf8.decode_from].
    rewrite byte_of_N_to_N by lia. rewrite lead_byte_ascii by exact C1.
    reflexivity. }
  destruct (N.ltb_spec cp 0x800) as [C2|C2].
  { cbn [app]. name_divmod cp. next_byte.
    unfold Utf8.lead_byte. compare_all. next_byte.
    unfold Utf8.push.
    destruct (Utf8.decode_from Utf8.Start r); cbn [option_map]; [|reflexivity].
    f_equal. f_equal. lia. }
  destruct (N.ltb_spec cp 0x10000) as [C3|C3].
  { destruct (N.leb_spec 0xD800 cp) as [S1|S1];
      [destruct (N.leb_spec cp 0xDFFF) as [S2|S2]; [exact I|]|];
      cbn [andb app]; name_divmod cp; next_byte;
      unfold Utf8.lead_byte; compare_all; next_byte; next_byte;
      unfold Utf8.push;
      (destruct (Utf8.decode_from Utf8.Start r); cbn [option_map]; [|reflexivity]);
      f_equal; f_equal; lia. }
  destruct (N.ltb_spec cp 0x110000) as [C4|C4]; [|exact I].
  cbn [app]; name_divmod cp; next_byte;
    unfold Utf8.lead_byte; compare_all; next_byte; next_byte; next_byte;
    unfold Utf8.push;
    (destruct (Utf8.decode_from Utf8.Start r); cbn [option_map]; [|reflexivity]);
    f_equal; f_equal; lia.
Qed.

(** The bytes of an encoded text decode to it, whatever bytes follow. *)
Lemma decode_after_encode (t : text) :
  forall bs r,
    Utf8.encode t = Some bs ->
    Utf8.decode (bs ++ r) = option_map (app t) (Utf8.decode r).
Proof.
  unfold Utf8.decode.
  induction t as [|cp t IH]; intros bs r; cbn [Utf8.encode].
  - intros [= <-]. cbn [app]. destruct (Utf8.decode_from Utf8.Start r); reflexivity.
  - pose proof (fun r => decode_encode_cp cp r) as C.
    destruct (Utf8.encode_cp cp) as [x|]; [|discriminate].
    destruct (Utf8.encode t) as [y|]; [|discriminate].
    intros [= <-]. rewrite <- app_assoc, C, (IH y r eq_refl).
    destruct (Utf8.decode_from Utf8.Start r); reflexivity.
Qed.

Lemma decode_of_encode_start (t : text) (bs : bytes) :
  Utf8.encode t = Some bs -> Utf8.decode_from Utf8.Start bs = Some t.
Proof.
  intro E. rewrite <- (app_nil_r bs).
  pose proof (decode_after_encode t bs [] E) as D. unfold Utf8.decode in D.
  rewrite D. cbn [Utf8.decode_from option_map]. rewrite app_nil_r.
  reflexivity.
Qed.

(** X15.  Decoding undoes encoding: the bytes [str.encode('utf-8')] gives
    for a text are bytes [bytes.decode('utf-8')] accepts, and they decode
    to that text again. *)
Theorem utf8_decode_encode (t : text) (bs : bytes) :
  Utf8.encode t = Some bs -> Utf8.decode bs = Some t.
Proof.
  intro E. rewrite <- (app_nil_r bs).
  rewrite (decode_after_encode t bs [] E).
  cbn [Utf8.decode Utf8.decode_from option_map]. rewrite app_nil_r.
  reflexivity.
Qed.

(** * Beyond the claims: from one peer to the other *)

Lemma truthy_of_startswith (p t : text) :
  p <> [] -> startswith p t = true -> truthy t = true.
Proof.
  destruct p; [congruence|]. destruct t; [discriminate | reflexivity].
Qed.

Lemma basename_of_bare_name (name : text) :
  contains SLASH name = false -> basename name = name.
Proof.
  destruct name as [|x r]; [reflexivity|].
  cbn [contains existsb basename]. fold (contains SLASH r).
  intro H. apply orb_false_iff in H. destruct H as [X C].
  rewrite C, N.eqb_sym, X. reflexivity.
Qed.

Lemma basename_after_slash (dir name : text) :
  contains SLASH name = false -> basename (dir ++ SLASH :: name) = name.
Proof.
  intro C. induction dir as [|x dir IH]; cbn [app basename].
  - rewrite C. reflexivity.
  - rewrite contains_app. cbn [contains existsb]. rewrite N.eqb_refl.
    rewrite orb_true_r. exact IH.
Qed.

(** X16.  Only the last component of the path goes on the wire: a file
    sent from a directory and the same file sent by its bare name give the
    same bytes to [sendall]. *)
Theorem send_file_leaves_the_directory_out (dir name : text)
    (encrypted_data : bytes) :
  contains SLASH name = false ->
  send_file (dir ++ SLASH :: name) encrypted_data =
  send_file name encrypted_data.
Proof.
  intro C. unfold send_file.
  rewrite (basename_after_slash dir name C), (basename_of_bare_name name C).
  reflexivity.
Qed.

Section EndToEnd.

(** The receiving peer's [gpg]. *)
Variable run : list text -> bytes -> CompletedProcess.

(** A chunk that decodes to a "FILE:" header line with a name free of
    colons and newlines, and something after it, is handed to [gpg] under
    that name, cut after as many bytes as the header line has characters. *)
Lemma file_chunk_pass (s s' : stream) (data : bytes) (name armored : text) :
  recv 4096 s = (Data data, s') ->
  Utf8.decode data = Some (str "FILE:" ++ (name ++ [COLON]) ++ NL :: armored) ->
  contains COLON name = false ->
  contains NL name = false ->
  armored <> [] ->
  loop_body run s =
  save_file run name
    (slice_from (length (str "FILE:" ++ name ++ [COLON]) + 1) data) s'.
Proof.
  intros R D Hc Hn Ha.
  rewrite (loop_body_file run _ _ _ _ R D (startswith_app _ _)).
  assert (P : partition NL (str "FILE:" ++ (name ++ [COLON]) ++ NL :: armored)
              = (str "FILE:" ++ name ++ [COLON], [NL], armored)).
  { rewrite app_assoc. apply partition_found.
    rewrite !contains_app, Hn. reflexivity. }
  rewrite (receive_file_no_follow_up run _ _ _ _ _ _ P Ha).
  rewrite filename_of_file_header.
  rewrite (partition_found COLON name [] Hc). reflexivity.
Qed.

Lemma header_text_assoc (name armored : text) :
  (str "FILE:" ++ name ++ [COLON; NL]) ++ armored =
  str "FILE:" ++ (name ++ [COLON]) ++ NL :: armored.
Proof. rewrite <- !app_assoc. reflexivity. Qed.

(** X17.  A file sent by the program's own send path, arriving in one
    read, is saved by the peer under the base name of the path it was sent
    from, which has no slash in it: this holds for every file name that
    has neither a colon nor a newline, ASCII or not, when the ciphertext
    is non-empty UTF-8 text.  When the name is ASCII, what [gpg] is given
    to decrypt is the ciphertext itself, byte for byte.  (No file has a NUL
    character in its name, so the send path, which sends what
    [os.path.isfile] accepts, never sends one; a peer that wrote such a
    header itself would get no file saved and would end the receive
    thread.) *)
Theorem sent_file_is_saved_under_its_base_name (filepath : text)
    (encrypted_data w : bytes) (rest : stream) :
  send_file filepath encrypted_data = Some w ->
  contains COLON (basename filepath) = false ->
  contains NL (basename filepath) = false ->
  encrypted_data <> [] ->
  (exists t, Utf8.decode encrypted_data = Some t) ->
  N.of_nat (length w) <= 4096 ->
  (contains NUL (basename filepath) = false ->
   written_to (fst (loop_body run (Chunk w :: rest))) = [basename filepath]) /\
  (contains NUL (basename filepath) = true ->
   loop_body run (Chunk w :: rest) = ([], Raised EmbeddedNull rest)) /\
  contains SLASH (basename filepath) = false /\
  (ascii_text (basename filepath) ->
   loop_body run (Chunk w :: rest) =
   save_file run (basename filepath) encrypted_data rest).
Proof.
  unfold send_file. set (name := basename filepath).
  intros E Hc Hn He [t D] L.
  destruct (file_header name) as [header|] eqn:H; [|discriminate].
  cbn [option_map] in E.
  assert (Ew : w = header ++ encrypted_data) by (inversion E; reflexivity).
  clear E. subst w.
  assert (Ht : t <> []).
  { intro Z. subst t. apply decode_empty_text in D. contradiction. }
  pose proof (recv_fits 4096 _ rest L) as R.
  assert (Dw : Utf8.decode (header ++ encrypted_data) =
               Some (str "FILE:" ++ (name ++ [COLON]) ++ NL :: t)).
  { unfold file_header in H.
    rewrite (decode_after_encode _ _ encrypted_data H), D.
    cbn [option_map]. rewrite header_text_assoc. reflexivity. }
  rewrite (file_chunk_pass _ _ _ _ _ R Dw Hc Hn Ht).
  split; [|split; [|split]].
  - intro Z.
    destruct (save_file_trace run name
                (slice_from (length (str "FILE:" ++ name ++ [COLON]) + 1)
                            (header ++ encrypted_data)) rest Z)
      as (acts & fl & T & _ & Q).
    rewrite T. cbn [fst written_to gpg_decrypt_to].
    rewrite (quiet_written_to _ Q). reflexivity.
  - intro Z. apply save_file_nul. exact Z.
  - apply basename_has_no_separator.
  - intro A. rewrite (file_header_ascii _ A) in H.
    assert (Eh : header = map byte_of_N (str "FILE:" ++ name ++ [COLON; NL]))
      by (inversion H; reflexivity).
    f_equal. unfold slice_from.
    replace (length (str "FILE:" ++ name ++ [COLON]) + 1)%nat
      with (length header).
    + rewrite skipn_app, skipn_all, Nat.sub_diag. reflexivity.
    + rewrite Eh, length_map, !length_app. simpl. lia.
Qed.

Lemma forall_firstn {A} (P : A -> Prop) (n : nat) (l : list A) :
  Forall P l -> Forall P (firstn n l).
Proof.
  intro H. revert n. induction H as [|x l Hx _ IH]; intros [|n]; cbn [firstn];
    constructor; auto.
Qed.

(** Bytes below 128 decode to the code points of the same numbers. *)
Lemma decode_ascii_bytes (bs r : bytes) :
  Forall (fun x => Byte.to_N x < 128) bs ->
  Utf8.decode (bs ++ r) =
  option_map (app (map Byte.to_N bs)) (Utf8.decode r).
Proof.
  intro A.
  assert (M : map byte_of_N (map Byte.to_N bs) = bs).
  { clear. induction bs as [|x bs IH]; [reflexivity|].
    cbn [map]. rewrite IH. f_equal. unfold byte_of_N.
    rewrite Byte.of_to_N. reflexivity. }
  rewrite <- M at 1. apply decode_ascii_app.
  unfold ascii_text. apply Forall_map. exact A.
Qed.

(** X18.  A file too long for one read is cut: when the header and the
    armored (ASCII) ciphertext together exceed 4096 bytes, the pass that
    reads the header hands [gpg] only the part of the ciphertext that came
    with the first 4096 bytes, and leaves the rest on the socket for the
    next pass. *)
Theorem long_file_is_cut_at_the_read_size (name : text)
    (header encrypted_data : bytes) (rest : stream) :
  ascii_text name ->
  contains COLON name = false ->
  contains NL name = false ->
  file_header name = Some header ->
  Forall (fun x => Byte.to_N x < 128) encrypted_data ->
  N.of_nat (length header) < 4096 ->
  4096 < N.of_nat (length (header ++ encrypted_data)) ->
  loop_body run (Chunk (header ++ encrypted_data) :: rest) =
  save_file run name
    (firstn (N.to_nat 4096 - length header) encrypted_data)
    (Chunk (skipn (N.to_nat 4096) (header ++ encrypted_data)) :: rest).
Proof.
  intros A Hc Hn H B Lh Lw.
  rewrite (file_header_ascii _ A) in H.
  assert (Eh : header = map byte_of_N (str "FILE:" ++ name ++ [COLON; NL]))
    by (inversion H; reflexivity).
  clear H.
  remember (N.to_nat 4096) as K eqn:HK.
  assert (R : recv 4096 (Chunk (header ++ encrypted_data) :: rest) =
              (Data (header ++ firstn (K - length header) encrypted_data),
               Chunk (skipn K (header ++ encrypted_data)) :: rest)).
  { cbn [recv]. destruct (N.leb_spec (N.of_nat (length (header ++ encrypted_data))) 4096);
      [lia|].
    rewrite <- HK. rewrite firstn_app, firstn_all2 by lia. reflexivity. }
  assert (Ne : firstn (K - length header) encrypted_data <> []).
  { rewrite length_app in Lw.
    destruct encrypted_data as [|x e]; [simpl in Lw; lia|].
    destruct (K - length header)%nat eqn:Z; [lia|]. discriminate. }
  assert (D : Utf8.decode (header ++ firstn (K - length header) encrypted_data)
              = Some (str "FILE:" ++ (name ++ [COLON]) ++ NL ::
                      map Byte.to_N (firstn (K - length header) encrypted_data))).
  { rewrite Eh. rewrite decode_ascii_app.
    - rewrite <- (app_nil_r (firstn _ encrypted_data)) at 1.
      rewrite decode_ascii_bytes by (apply forall_firstn; exact B).
      cbn [Utf8.decode Utf8.decode_from option_map].
      rewrite app_nil_r, header_text_assoc. reflexivity.
    - apply ascii_text_app; [|apply ascii_text_app; [exact A|]];
        unfold ascii_text; repeat constructor. }
  rewrite (file_chunk_pass _ _ _ _ _ R D Hc Hn).
  - f_equal. unfold slice_from.
    replace (length (str "FILE:" ++ name ++ [COLON]) + 1)%nat
      with (length header).
    + rewrite skipn_app, skipn_all, Nat.sub_diag. reflexivity.
    + rewrite Eh, length_map, !length_app. simpl. lia.
  - intro Z. apply map_eq_nil in Z. contradiction.
Qed.

End EndToEnd.

Section ChatEndToEnd.

Variable lower : text -> text.
Variable fs : text -> file.
Variable wire : nat -> option text.
Variable recipient : text.

(** The [gpg] of the peer that sends and of the peer that receives. *)
Variable gpg_here gpg_there : list text -> bytes -> CompletedProcess.

(** X19.  A chat line reaches the peer's screen as it was typed: when the
    line is not a command, [gpg] encrypts its UTF-8 bytes and the send goes
    through, the main loop sends exactly the ciphertext; and when that
    ciphertext arrives in one read, does not pass for a file, and the
    peer's [gpg] decrypts it to the bytes that were encrypted, the receive
    loop prints "Peer: " followed by the line, and goes on. *)
Theorem typed_line_is_shown_to_the_peer (user_input : text) (input : bytes)
    (n : nat) (rest : stream) :
  let cipher_bytes := stdout (gpg_here (gpg_encrypt recipient) input) in
  truthy user_input = true ->
  text_eqb (lower (strip user_input)) (str "/quit") = false ->
  startswith (str "/send") user_input = false ->
  Utf8.encode user_input = Some input ->
  returncode (gpg_here (gpg_encrypt recipient) input) = 0%Z ->
  wire n = None ->
  cipher_bytes <> [] ->
  N.of_nat (length cipher_bytes) <= 4096 ->
  is_file (Utf8.decode cipher_bytes) = false ->
  returncode (gpg_there gpg_decrypt cipher_bytes) = 0%Z ->
  stdout (gpg_there gpg_decrypt cipher_bytes) = input ->
  main_body lower gpg_here fs wire recipient user_input n =
    ([Act (Run (gpg_encrypt recipient) input); Sendall cipher_bytes None],
     Again) /\
  loop_body gpg_there (Chunk cipher_bytes :: rest) =
    ([Run gpg_decrypt cipher_bytes;
      Stdout ([NL] ++ str "Peer: " ++ user_input)],
     Continue rest).
Proof.
  cbv zeta. intros T Q S E Ra W Ne L F Rb Ob. split.
  - unfold main_body. rewrite T. cbn [negb]. rewrite Q, S.
    unfold send_message, encrypt_message. rewrite E. cbv zeta.
    rewrite Ra. cbn [Z.eqb]. rewrite W. reflexivity.
  - rewrite (loop_body_text gpg_there _ rest _ (recv_fits 4096 _ rest L) Ne F).
    unfold receive_text, decrypt_message. rewrite Rb, Ob.
    cbn [Z.eqb app]. unfold Utf8.decode_ignore.
    rewrite (decode_ignore_of_valid _ _ _ (decode_of_encode_start _ _ E)).
    reflexivity.
Qed.

End ChatEndToEnd.

(** * Beyond the claims: the path of a [/send] command *)

Lemma lstrip_spaces (ws t : text) :
  forallb isspace ws = true -> lstrip (ws ++ t) = lstrip t.
Proof.
  induction ws as [|c ws IH]; [reflexivity|].
  cbn [forallb app lstrip]. intro H. apply andb_true_iff in H.
  destruct H as [C W]. rewrite C. exact (IH W).
Qed.

Lemma word_then_space (w t : text) :
  forallb (fun c => negb (isspace c)) w = true ->
  lstrip t <> t \/ t = [] ->
  word (w ++ t) = (w, t).
Proof.
  intros W T. induction w as [|c w IH]; cbn [app].
  - destruct t as [|d t]; [reflexivity|].
    cbn [word]. destruct (isspace d) eqn:D; [reflexivity|].
    exfalso. destruct T as [T|T]; [|discriminate].
    apply T. cbn [lstrip]. rewrite D. reflexivity.
  - cbn [forallb] in W. apply andb_true_iff in W. destruct W as [C W].
    cbn [word]. apply negb_true_iff in C. rewrite C, (IH W). reflexivity.
Qed.

(** [split(maxsplit=1)] on a word, white space, and more: the word, and
    what follows the white space, untouched. *)
Lemma split_once_command (w ws path : text) (c : N) :
  w <> [] ->
  forallb (fun c => negb (isspace c)) w = true ->
  ws <> [] -> forallb isspace ws = true ->
  isspace c = false ->
  split_once (w ++ ws ++ c :: path) = [w; c :: path].
Proof.
  intros Hw W Hs S C. unfold split_once.
  assert (L0 : lstrip (c :: path) = c :: path) by (cbn [lstrip]; rewrite C; reflexivity).
  assert (L1 : lstrip (w ++ ws ++ c :: path) = w ++ ws ++ c :: path).
  { destruct w as [|x w]; [congruence|]. cbn [forallb] in W.
    apply andb_true_iff in W. destruct W as [X _].
    apply negb_true_iff in X. cbn [app lstrip]. rewrite X. reflexivity. }
  rewrite L1.
  destruct (w ++ ws ++ c :: path) as [|d r] eqn:E.
  { destruct w; [congruence | discriminate]. }
  rewrite <- E. rewrite word_then_space.
  - rewrite (lstrip_spaces ws _ S), L0. reflexivity.
  - exact W.
  - left. rewrite (lstrip_spaces ws _ S), L0.
    destruct ws as [|y ws]; [congruence|].
    intro Z. apply (f_equal (@length N)) in Z.
    rewrite length_app in Z. simpl in Z. lia.
Qed.

Section SendCommandPath.

Variable lower : text -> text.
Variable run : list text -> bytes -> CompletedProcess.
Variable fs : text -> file.
Variable wire : nat -> option text.
Variable recipient : text.

(** X20.  The path of a [/send] command is everything after the white
    space that follows the command word, inner and trailing spaces
    included: that, unchanged, is the path looked up, and when no file is
    there the program says so with that path and sends nothing. *)
Theorem send_command_takes_the_path_as_typed (ws path : text) (c : N)
    (n : nat) :
  ws <> [] -> forallb isspace ws = true ->
  isspace c = false ->
  text_eqb (lower (strip (str "/send" ++ ws ++ c :: path))) (str "/quit")
    = false ->
  fs (c :: path) = NotAFile ->
  main_body lower run fs wire recipient (str "/send" ++ ws ++ c :: path) n =
  ([Act (Stdout (str "File not found: " ++ c :: path))], Again).
Proof.
  intros Hs S C Q F. unfold main_body. rewrite Q.
  change (negb (truthy (str "/send" ++ ws ++ c :: path))) with false.
  rewrite (startswith_app (str "/send") (ws ++ c :: path)).
  unfold send_command.
  rewrite (split_once_command (str "/send") ws path c
             ltac:(discriminate) eq_refl Hs S C).
  rewrite F. reflexivity.
Qed.

End SendCommandPath.

(** * Beyond the claims: the port *)

Section PortProperties.

Variable int : text -> option Z.

Lemma parse_args_port_bounded (k : nat) :
  forall c c' args,
    (length args <= k)%nat ->
    (forall a, In a args -> is_one_of a port_options = false) ->
    parse_args int c args = Parsed c' ->
    PORT c' = PORT c.
Proof.
  induction k as [|k IH]; intros c c' args L N P.
  - destruct args; [|simpl in L; lia]. simpl in P. inversion P. reflexivity.
  - destruct args as [|a rest]; [simpl in P; inversion P; reflexivity|].
    simpl in L.
    destruct (parse_args_cons _ _ _ _ _ P)
      as [[A P']|(v & rest' & -> & A & [[B P']|[(B & C & n & I & P')|(B & C & D & P')]])].
    + apply IH in P'; [exact P' | lia |].
      intros x H. apply N. right. exact H.
    + apply IH in P'; [exact P' | simpl in L; lia |].
      intros x H. apply N. right. right. exact H.
    + rewrite (N a (or_introl eq_refl)) in C. discriminate.
    + apply IH in P'; [exact P' | simpl in L; lia |].
      intros x H. apply N. right. right. exact H.
Qed.

(** X21.  The port is 9000 unless the command line says otherwise: when no
    argument is [--port] or [-p] and the program comes to its socket calls,
    every bind and every connect is on port 9000. *)
Theorem default_port_is_9000 (args : list text) (env : option text)
    (ok : sockcall -> bool) (c : Config) (key : text)
    (calls : list sockcall) (connected : bool) :
  (forall a, In a args -> is_one_of a port_options = false) ->
  startup int args env ok = Sockets c key calls connected ->
  PORT c = 9000%Z /\
  (forall host port, In (SockBind host port) calls -> port = 9000%Z) /\
  (forall host port, In (SockConnect host port) calls -> port = 9000%Z).
Proof.
  intros N S.
  destruct (startup_sockets _ _ _ _ _ _ _ _ S) as (P & _ & _ & ->).
  assert (E : PORT c = 9000%Z)
    by exact (parse_args_port_bounded (length args) _ _ _ (le_n _) N P).
  split; [exact E|]. split; intros host port H;
    apply establish_calls in H; rewrite <- E; tauto.
Qed.

End PortProperties.

(** * The further properties at work on concrete inputs *)

(** [--listen] and then [--port 9001]. *)
Lemma parse_args_app_witness :
  parse_args (fun _ => Some 9001%Z) defaults
    ([str "--listen"] ++ [str "--port"; str "9001"]) =
  parse_args (fun _ => Some 9001%Z)
    {| LISTEN_MODE := true; PEER_ADDRESS := None; PORT := 9000;
       PEER_GPG_ID := None |}
    [str "--port"; str "9001"].
Proof.
  apply (parse_args_app (fun _ => Some 9001%Z) defaults).
  vm_compute. reflexivity.
Defined.

Lemma parse_args_accepts_witness :
  well_formed (fun _ => Some 9001%Z) [str "-c"; str "::1"; str "-p"; str "9001"].
Proof.
  apply (proj1 (parse_args_accepts (fun _ => Some 9001%Z) defaults
                  [str "-c"; str "::1"; str "-p"; str "9001"])).
  eexists. vm_compute. reflexivity.
Defined.

(** [--listen] stays on after [--connect ::1]. *)
Lemma parse_args_keeps_settings_witness :
  LISTEN_MODE {| LISTEN_MODE := true; PEER_ADDRESS := Some (str "::1");
                 PORT := 9000; PEER_GPG_ID := None |} = true.
Proof.
  apply (proj1 (parse_args_keeps_settings (fun _ => Some 9001%Z)
                  {| LISTEN_MODE := true; PEER_ADDRESS := None; PORT := 9000;
                     PEER_GPG_ID := None |} _
                  [str "--connect"; str "::1"]
                  ltac:(vm_compute; reflexivity))).
  reflexivity.
Defined.

(** [--connect 10.0.0.1 -r bob]. *)
Lemma startup_mode_discipline_witness :
  false = false /\ 9000%Z = 9000%Z /\
  exists a, Some (str "10.0.0.1") = Some a /\ Some (str "10.0.0.1") = Some a.
Proof.
  apply (proj1 (startup_mode_discipline (fun _ => Some 9001%Z)
                  [str "--connect"; str "10.0.0.1"; str "-r"; str "bob"]
                  None (fun _ => true)
                  {| LISTEN_MODE := false;
                     PEER_ADDRESS := Some (str "10.0.0.1");
                     PORT := 9000; PEER_GPG_ID := Some (str "bob") |}
                  (str "bob")
                  [SockCreate AF_INET; SockConnect (Some (str "10.0.0.1")) 9000]
                  true
                  ltac:(vm_compute; reflexivity))
           (Some (str "10.0.0.1")) 9000%Z).
  right. left. reflexivity.
Defined.

(** [--listen] with the key in the environment only. *)
Lemma startup_key_precedence_witness :
  parse_args (fun _ => Some 9001%Z) defaults [str "--listen"] =
    Parsed {| LISTEN_MODE := true; PEER_ADDRESS := None; PORT := 9000;
              PEER_GPG_ID := None |} /\
  (None = Some (str "carol") \/
   (@None text = None /\ Some (str "carol") = Some (str "carol"))).
Proof.
  apply (startup_key_precedence (fun _ => Some 9001%Z) [str "--listen"]
           (Some (str "carol")) (fun _ => true)
           {| LISTEN_MODE := true; PEER_ADDRESS := None; PORT := 9000;
              PEER_GPG_ID := None |}
           (str "carol")
           [SockCreate AF_INET; SockBind [] 9000; SockListen 1; SockAccept]
           true).
  vm_compute. reflexivity.
Defined.

(** Only a key on the command line: the usage text, exit code 0. *)
Lemma startup_exit_zero_witness :
  startup (fun _ => Some 9001%Z) [str "-r"; str "bob"] None (fun _ => true)
  = Exits 0
      (str "Usage: secure_chat.py --listen [--port X] --peer-key <id>" ++ [NL] ++
       str "   or: secure_chat.py --connect <address> [--port X] --peer-key <id>"
       ++ [NL]).
Proof.
  apply (proj2 (proj1 (proj2 (startup_exit_zero (fun _ => Some 9001%Z)
                                [str "-r"; str "bob"] None (fun _ => true))))).
  eexists. split; [vm_compute; reflexivity|]. split; reflexivity.
Defined.

(** The line "hi", with [gpg] writing "CT". *)
Lemma only_ciphertext_is_sent_witness :
  ciphertext_for (gpg_accepting (b "CT")) (str "bob") (b "CT").
Proof.
  apply (only_ciphertext_is_sent (fun t => t) (gpg_accepting (b "CT"))
           (fun _ => NotAFile) (fun _ => None) (str "bob")
           [Line (str "hi")] 0%nat (b "CT") None).
  vm_compute. right. left. reflexivity.
Defined.

(** The line "/quit". *)
Lemma connection_closed_once_at_the_end_witness :
  exists pre,
    fst (main_loop (fun t => t) (gpg_accepting (b "CT")) (fun _ => NotAFile)
           (fun _ => None) (str "bob") 0 [Line (str "/quit")])
    = pre ++ [Act Close] /\
    open_throughout pre = true.
Proof.
  apply (proj2 (connection_closed_once_at_the_end (fun t => t)
                  (gpg_accepting (b "CT")) (fun _ => NotAFile)
                  (fun _ => None) (str "bob") [Line (str "/quit")] 0%nat)).
  vm_compute. discriminate.
Defined.

(** The line "hi" on a connection that is down. *)
Lemma failed_send_is_the_last_witness :
  snd (main_loop (fun t => t) (gpg_accepting (b "CT")) (fun _ => NotAFile)
         (fun _ => Some (str "Broken pipe")) (str "bob") 0
         [Line (str "hi"); Line (str "more")])
  = SendFailed.
Proof.
  apply (proj2 (proj1 (failed_send_is_the_last (fun t => t)
                         (gpg_accepting (b "CT")) (fun _ => NotAFile)
                         (fun _ => Some (str "Broken pipe")) (str "bob")
                         [Line (str "hi"); Line (str "more")] 0%nat))).
  exists (b "CT"), (str "Broken pipe").
  vm_compute. right. left. reflexivity.
Defined.

(** The line "/send a.txt", the file holding "data". *)
Lemma send_command_lines_send_files_only_witness :
  exists filepath, (fun _ : text => Contents (b "data")) filepath
                   = Contents (b "data").
Proof.
  apply (proj1 (send_command_lines_send_files_only (fun t => t)
                  (gpg_accepting (b "CT")) (fun _ => Contents (b "data"))
                  (fun _ => None) (str "bob") (str "/send a.txt") 0%nat
                  ltac:(vm_compute; reflexivity))
           (gpg_encrypt (str "bob")) (b "data")).
  vm_compute. left. reflexivity.
Defined.

(** The chunk "FILE:a:", a newline, "X". *)
Lemma only_file_chunks_write_files_witness :
  exists data s' t,
    recv 4096 [Chunk (b "FILE:a:" ++ [x0a] ++ b "X")] = (Data data, s') /\
    Utf8.decode data = Some t /\
    startswith (str "FILE:") t = true.
Proof.
  apply (only_file_chunks_write_files (gpg_accepting (b "hi"))
           [Chunk (b "FILE:a:" ++ [x0a] ++ b "X")]).
  vm_compute. discriminate.
Defined.

(** The plaintext "hello". *)
Lemma decrypted_text_is_shown_as_it_is_witness :
  receive_text (gpg_accepting (b "hello")) (b "x") [] =
  ([Run gpg_decrypt (b "x"); Stdout ([NL] ++ str "Peer: " ++ str "hello")],
   Continue []).
Proof.
  apply (decrypted_text_is_shown_as_it_is (gpg_accepting (b "hello"))
           (b "x") [] (str "hello")).
  - reflexivity.
  - vm_compute. reflexivity.
Defined.

(** E-acute, the euro sign and an emoticon: two, three and four bytes. *)
Lemma utf8_decode_encode_witness :
  Utf8.decode [xc3; xa9; xe2; x82; xac; xf0; x9f; x98; x80] =
  Some [233; 8364; 128512].
Proof.
  apply (utf8_decode_encode [233; 8364; 128512]).
  vm_compute. reflexivity.
Defined.

Lemma send_file_leaves_the_directory_out_witness :
  send_file (str "/home/me" ++ SLASH :: str "a.txt") (b "DATA") =
  send_file (str "a.txt") (b "DATA").
Proof.
  apply (send_file_leaves_the_directory_out (str "/home/me") (str "a.txt")).
  vm_compute. reflexivity.
Defined.

(** A file with e-acute in its name, sent from a directory. *)
Lemma sent_file_is_saved_under_its_base_name_witness :
  written_to
    (fst (loop_body (gpg_accepting (b "hi"))
            [Chunk (b "FILE:r" ++ [xc3; xa9] ++ b ".txt:" ++ [x0a] ++ b "DATA")]))
  = [str "r" ++ [233] ++ str ".txt"].
Proof.
  apply (proj1 (sent_file_is_saved_under_its_base_name
                  (gpg_accepting (b "hi"))
                  (str "docs/r" ++ [233] ++ str ".txt") (b "DATA")
                  (b "FILE:r" ++ [xc3; xa9] ++ b ".txt:" ++ [x0a] ++ b "DATA")
                  []
                  ltac:(vm_compute; reflexivity)
                  ltac:(vm_compute; reflexivity)
                  ltac:(vm_compute; reflexivity)
                  ltac:(discriminate)
                  (ex_intro (fun t => Utf8.decode (b "DATA") = Some t)
                            (str "DATA") ltac:(vm_compute; reflexivity))
                  ltac:(vm_compute; discriminate))).
  vm_compute. reflexivity.
Defined.

(** A ciphertext of 4100 letters behind the header of the file "a". *)
Lemma long_file_is_cut_at_the_read_size_witness :
  loop_body (gpg_accepting (b "hi"))
    [Chunk ((b "FILE:a:" ++ [x0a]) ++ repeat x41 4100)] =
  save_file (gpg_accepting (b "hi")) (str "a")
    (firstn (N.to_nat 4096 - length (b "FILE:a:" ++ [x0a])) (repeat x41 4100))
    [Chunk (skipn (N.to_nat 4096) ((b "FILE:a:" ++ [x0a]) ++ repeat x41 4100))].
Proof.
  apply (long_file_is_cut_at_the_read_size (gpg_accepting (b "hi")) (str "a")
           (b "FILE:a:" ++ [x0a]) (repeat x41 4100) []).
  - unfold ascii_text. repeat constructor.
  - reflexivity.
  - reflexivity.
  - vm_compute. reflexivity.
  - apply Forall_forall. intros x H. apply repeat_spec in H. subst x.
    vm_compute. reflexivity.
  - vm_compute. reflexivity.
  - vm_compute. reflexivity.
Defined.

(** The line "hello", between a [gpg] that puts a dash in front of what it
    encrypts and one that takes the first byte off what it decrypts. *)
Lemma typed_line_is_shown_to_the_peer_witness :
  main_body (fun t => t)
    (fun _ input => {| returncode := 0; stdout := x2d :: input; stderr := [] |})
    (fun _ => NotAFile) (fun _ => None) (str "bob") (str "hello") 0 =
    ([Act (Run (gpg_encrypt (str "bob")) (b "hello"));
      Sendall (x2d :: b "hello") None], Again) /\
  loop_body
    (fun _ input => {| returncode := 0; stdout := tl input; stderr := [] |})
    [Chunk (x2d :: b "hello")] =
    ([Run gpg_decrypt (x2d :: b "hello");
      Stdout ([NL] ++ str "Peer: " ++ str "hello")], Continue []).
Proof.
  apply (typed_line_is_shown_to_the_peer (fun t => t) (fun _ => NotAFile)
           (fun _ => None) (str "bob")
           (fun _ input =>
              {| returncode := 0; stdout := x2d :: input; stderr := [] |})
           (fun _ input =>
              {| returncode := 0; stdout := tl input; stderr := [] |})
           (str "hello") (b "hello") 0%nat []).
  - reflexivity.
  - vm_compute. reflexivity.
  - vm_compute. reflexivity.
  - vm_compute. reflexivity.
  - reflexivity.
  - reflexivity.
  - discriminate.
  - vm_compute. discriminate.
  - vm_compute. reflexivity.
  - reflexivity.
  - reflexivity.
Defined.

(** The line "/send a b " with its trailing space. *)
Lemma send_command_takes_the_path_as_typed_witness :
  main_body (fun t => t) (gpg_accepting (b "CT")) (fun _ => NotAFile)
    (fun _ => None) (str "bob") (str "/send" ++ [32] ++ 97 :: str " b ") 0 =
  ([Act (Stdout (str "File not found: " ++ 97 :: str " b "))], Again).
Proof.
  apply (send_command_takes_the_path_as_typed (fun t => t)
           (gpg_accepting (b "CT")) (fun _ => NotAFile) (fun _ => None)
           (str "bob") [32] (str " b ") 97 0%nat).
  - discriminate.
  - reflexivity.
  - reflexivity.
  - vm_compute. reflexivity.
  - reflexivity.
Defined.

(** [--listen -r bob]. *)
Lemma default_port_is_9000_witness :
  PORT {| LISTEN_MODE := true; PEER_ADDRESS := None; PORT := 9000;
          PEER_GPG_ID := Some (str "bob") |} = 9000%Z.
Proof.
  apply (proj1 (default_port_is_9000 (fun _ => Some 9001%Z)
                  [str "--listen"; str "-r"; str "bob"] None (fun _ => true)
                  {| LISTEN_MODE := true; PEER_ADDRESS := None; PORT := 9000;
                     PEER_GPG_ID := Some (str "bob") |}
                  (str "bob")
                  [SockCreate AF_INET; SockBind [] 9000; SockListen 1;
                   SockAccept]
                  true
                  ltac:(intros a [<-|[<-|[<-|[]]]]; reflexivity)
                  ltac:(vm_compute; reflexivity))).
Defined.
